(** * SpecialAVLTree: the flat binary search and the rebuilt balanced tree

    A shallow embedding of [BinarySearch.cpp] and of the tree core of
    [a02_V5.cpp] (classes [AVLNode], [AVLTree] and the found-test of [main]),
    followed by the properties of the specification.

    Conventions of the embedding.
    - A C++ [int] is a [Z] in the range [INT_MIN .. INT_MAX]; every [int]
      operation is written with its 32-bit two's complement wrap-around
      ([wrap]).  The language leaves signed overflow undefined; the wrapped
      value is what the usual targets compute, and wherever it matters here
      the wrapped index is negative, so the next vector access is out of range.
    - [std::vector<T>] is a [list]; [v[i]] outside [0 .. size-1] has no
      defined behaviour and is the outcome [Fault].
    - Loops and the range recursion of [buildBalancedTree] take fuel; running
      out of it is the separate outcome [OutOfFuel], never a result.
    - The key type [T] is instantiated at [int] in both programs; keys are
      only compared, never computed with, so a key is a [Z]. *)

From Stdlib Require Import ZArith List Bool Lia Sorted Permutation.
Import ListNotations.
Local Open Scope Z_scope.

(** ** Machine integers *)

Definition INT_MAX : Z := 2147483647.
Definition INT_MIN : Z := -2147483648.

(** Reduction of a mathematical integer to the 32-bit signed range. *)
Definition wrap (z : Z) : Z := (z + 2147483648) mod 4294967296 - 2147483648.

Definition int_add (a b : Z) : Z := wrap (a + b).
Definition int_sub (a b : Z) : Z := wrap (a - b).
(** C++ [/] on [int] truncates toward zero. *)
Definition int_div (a b : Z) : Z := wrap (Z.quot a b).

(** [v.size()] is a 64-bit [size_t]; [size_sub] is its wrapping subtraction
    and [int_of_size_t] the conversion to [int], explicit in
    [(int)v.size()] and implicit in [int high = v.size() - 1]. *)
Definition size_sub (a b : Z) : Z := (a - b) mod 18446744073709551616.
Definition int_of_size_t (n : Z) : Z := wrap n.
Definition size {A : Type} (v : list A) : Z := Z.of_nat (length v).

(** The expression [(low + high + 1) / 2] as both programs write it. *)
Definition upper_mid (low high : Z) : Z := int_div (int_add (int_add low high) 1) 2.

(** ** Outcomes of a run *)

Inductive outcome (A : Type) : Type :=
| Done (a : A)
| Fault
| OutOfFuel.
Arguments Done {A} a.
Arguments Fault {A}.
Arguments OutOfFuel {A}.

Definition bind {A B : Type} (m : outcome A) (f : A -> outcome B) : outcome B :=
  match m with
  | Done a => f a
  | Fault => Fault
  | OutOfFuel => OutOfFuel
  end.

Notation "x <- m ;; k" := (bind m (fun x => k))
  (at level 61, m at next level, right associativity).

(** [v[i]] with an [int] index. *)
Definition vec_at {A : Type} (v : list A) (i : Z) : option A :=
  if i <? 0 then None else nth_error v (Z.to_nat i).

Definition at_index {A : Type} (v : list A) (i : Z) : outcome A :=
  match vec_at v i with
  | Some x => Done x
  | None => Fault
  end.

(** ** BinarySearch.cpp *)

Module BinarySearch.

(** What a call leaves behind: the local vector [path] as it stands when the
    call stops, and the returned [int] (or the fault that stopped the call).
    The line the program prints is [printed]: the elements at the recorded
    indices. *)
Record run : Type := mkRun { path : list Z; result : outcome Z }.

(** The [while (low <= high)] loop; [path] is the vector built so far. *)
Fixpoint loop (fuel : nat) (arr : list Z) (target low high : Z) (path : list Z) : run :=
  match fuel with
  | O => mkRun path OutOfFuel
  | S fuel' =>
      if low <=? high then
        let mid := upper_mid low high in
        let path' := path ++ [mid] in
        match vec_at arr mid with
        | None => mkRun path' Fault
        | Some x =>
            if x =? target then mkRun path' (Done mid)
            else if x <? target then loop fuel' arr target (int_add mid 1) high path'
            else loop fuel' arr target low (int_sub mid 1) path'
        end
      else mkRun path (Done (-1))
  end.

Definition binarySearch (arr : list Z) (target : Z) : run :=
  loop (S (length arr)) arr target 0 (int_of_size_t (size_sub (size arr) 1)) [].

(** The values written after ["Path taken: "]. *)
Definition printed (arr : list Z) (r : run) : list (option Z) :=
  map (vec_at arr) (path r).

End BinarySearch.

(** ** a02_V5.cpp: AVLNode and AVLTree *)

Module AVL.

(** An [AVLNode<T>*]: null, or a node with its key, its two children and its
    stored height. *)
Inductive AVLNode : Type :=
| nullptr
| node (key : Z) (left right : AVLNode) (height : Z).

(** [p->key], defined on a non-null pointer only. *)
Definition key (p : AVLNode) : option Z :=
  match p with
  | nullptr => None
  | node k _ _ _ => Some k
  end.

Definition height (p : AVLNode) : Z :=
  match p with
  | nullptr => 0
  | node _ _ _ h => h
  end.

Record AVLTree : Type := mkTree { root : AVLNode; sortedElements : list Z }.

(** The constructor [AVLTree()]. *)
Definition empty : AVLTree := mkTree nullptr [].

Fixpoint buildBalancedTree (fuel : nat) (sortedElements : list Z) (start end_ : Z)
  : outcome AVLNode :=
  match fuel with
  | O => OutOfFuel
  | S fuel' =>
      if start >? end_ then Done nullptr
      else
        let mid := upper_mid start end_ in
        k <- at_index sortedElements mid ;;
        l <- buildBalancedTree fuel' sortedElements start (int_sub mid 1) ;;
        r <- buildBalancedTree fuel' sortedElements (int_add mid 1) end_ ;;
        Done (node k l r (int_add 1 (Z.max (height l) (height r))))
  end.

(** [buildBalancedTree(0, (int)sortedElements.size() - 1)]. *)
Definition rebuild (elems : list Z) : outcome AVLNode :=
  buildBalancedTree (S (length elems)) elems 0 (int_sub (int_of_size_t (size elems)) 1).

(** [std::lower_bound] over the whole vector: the position of the first
    element that is not less than [key], which is the partition point the
    library returns on a sorted vector (the object never holds another kind:
    [ascending_insert], [ascending_erase]); [length v] stands for [end()]. *)
Fixpoint lower_bound (v : list Z) (key : Z) : nat :=
  match v with
  | [] => O
  | x :: v' => if x <? key then S (lower_bound v' key) else O
  end.

Definition vec_insert (v : list Z) (it : nat) (x : Z) : list Z :=
  firstn it v ++ x :: skipn it v.

Definition vec_erase (v : list Z) (it : nat) : list Z :=
  firstn it v ++ skipn (S it) v.

(** The vector after the first two statements of [insertRebuild]. *)
Definition insert_sorted (v : list Z) (key : Z) : list Z :=
  let it := lower_bound v key in
  match nth_error v it with
  | None => vec_insert v it key
  | Some x => if negb (x =? key) then vec_insert v it key else v
  end.

(** The vector after the first two statements of [deleteRebuild]. *)
Definition erase_sorted (v : list Z) (key : Z) : list Z :=
  let it := lower_bound v key in
  match nth_error v it with
  | None => v
  | Some x => if x =? key then vec_erase v it else v
  end.

(** Both return the new root and leave the updated vector in the object. *)
Definition insertRebuild (key : Z) (t : AVLTree) : outcome (AVLNode * AVLTree) :=
  let elems := insert_sorted (sortedElements t) key in
  r <- rebuild elems ;;
  Done (r, mkTree (root t) elems).

Definition deleteRebuild (key : Z) (t : AVLTree) : outcome (AVLNode * AVLTree) :=
  let elems := erase_sorted (sortedElements t) key in
  match elems with
  | [] => Done (nullptr, mkTree (root t) elems)
  | _ :: _ => r <- rebuild elems ;; Done (r, mkTree (root t) elems)
  end.

Fixpoint searchBST (p : AVLNode) (key : Z) : bool :=
  match p with
  | nullptr => false
  | node k l r _ =>
      if k =? key then true
      else if key <? k then searchBST l key
      else searchBST r key
  end.

(** What [inorder] writes, as the list of keys. *)
Fixpoint inorder (p : AVLNode) : list Z :=
  match p with
  | nullptr => []
  | node k l r _ => inorder l ++ k :: inorder r
  end.

Definition insert (key : Z) (t : AVLTree) : outcome AVLTree :=
  rt <- insertRebuild key t ;;
  Done (mkTree (fst rt) (sortedElements (snd rt))).

Definition remove (key : Z) (t : AVLTree) : outcome AVLTree :=
  rt <- deleteRebuild key t ;;
  Done (mkTree (fst rt) (sortedElements (snd rt))).

Definition search (t : AVLTree) (key : Z) : bool := searchBST (root t) key.

Definition printInorder (t : AVLTree) : list Z := inorder (root t).

Definition getRoot (t : AVLTree) : AVLNode := root t.

(** The loop of [getSearchPath], from [current] on: the pointers pushed. *)
Fixpoint searchPathFrom (current : AVLNode) (key : Z) : list AVLNode :=
  match current with
  | nullptr => []
  | node k l r _ =>
      current ::
        (if k =? key then []
         else if key <? k then searchPathFrom l key
         else searchPathFrom r key)
  end.

Definition getSearchPath (t : AVLTree) (key : Z) : list AVLNode :=
  searchPathFrom (root t) key.

(** [path.back()], on a non-empty vector. *)
Fixpoint back (path : list AVLNode) : option AVLNode :=
  match path with
  | [] => None
  | p :: rest =>
      match rest with
      | [] => Some p
      | _ :: _ => back rest
      end
  end.

(** The test of [main]:
    [found = (!path.empty() && path.back()->key == searchVal)]. *)
Definition main_found (path : list AVLNode) (searchVal : Z) : outcome bool :=
  match back path with
  | None => Done false
  | Some p =>
      match key p with
      | Some k => Done (k =? searchVal)
      | None => Fault
      end
  end.

(** A request of the driving code, and a run of requests. *)
Inductive request : Type :=
| Insert (key : Z)
| Remove (key : Z).

Definition perform (rq : request) (t : AVLTree) : outcome AVLTree :=
  match rq with
  | Insert k => insert k t
  | Remove k => remove k t
  end.

Fixpoint perform_all (rqs : list request) (t : AVLTree) : outcome AVLTree :=
  match rqs with
  | [] => Done t
  | rq :: rqs' => t' <- perform rq t ;; perform_all rqs' t'
  end.

(** The trees the driving code can observe. *)
Definition reachable (t : AVLTree) : Prop :=
  exists rqs, perform_all rqs empty = Done t.

(** *** Vocabulary of the properties *)

(** The number of nodes on the longest downward path. *)
Fixpoint depth (p : AVLNode) : Z :=
  match p with
  | nullptr => 0
  | node _ l r _ => 1 + Z.max (depth l) (depth r)
  end.

(** Every stored height is one more than the larger child height, an absent
    child counting 0. *)
Fixpoint heights_stored (p : AVLNode) : Prop :=
  match p with
  | nullptr => True
  | node _ l r h =>
      h = 1 + Z.max (height l) (height r) /\ heights_stored l /\ heights_stored r
  end.

(** At every node the two subtrees differ in height by at most one. *)
Fixpoint balanced (p : AVLNode) : Prop :=
  match p with
  | nullptr => True
  | node _ l r _ =>
      Z.abs (depth l - depth r) <= 1 /\ balanced l /\ balanced r
  end.

(** The search-tree order: keys on the left are smaller, keys on the right
    larger, at every node. *)
Fixpoint BST (p : AVLNode) : Prop :=
  match p with
  | nullptr => True
  | node k l r _ =>
      Forall (fun x => x < k) (inorder l) /\ Forall (fun x => k < x) (inorder r)
      /\ BST l /\ BST r
  end.

(** A SortedKeySet: ascending, without duplicates. *)
Definition ascending (v : list Z) : Prop := StronglySorted Z.lt v.

(** [v[start..end_]], both ends included. *)
Definition slice (v : list Z) (start end_ : Z) : list Z :=
  firstn (Z.to_nat (end_ - start + 1)) (skipn (Z.to_nat start) v).

(** The largest key set whose rebuild stays inside [int]: 2^30 keys. *)
Definition MAX_KEYS : Z := 1073741824.

(** The state between two requests: the vector is a SortedKeySet that the
    [int] indices can address, and the root is the tree rebuilt from it. *)
Definition consistent (t : AVLTree) : Prop :=
  ascending (sortedElements t)
  /\ size (sortedElements t) <= MAX_KEYS
  /\ rebuild (sortedElements t) = Done (root t).

(** A search path as the specification words it: the nodes visited from
    [p] on, in order, ending at the node that holds [key] or at the node
    whose required child is absent. *)
Inductive descent (key : Z) : AVLNode -> list AVLNode -> Prop :=
| descent_absent : descent key nullptr []
| descent_match (l r : AVLNode) (h : Z) :
    descent key (node key l r h) [node key l r h]
| descent_left (k : Z) (l r : AVLNode) (h : Z) (path : list AVLNode) :
    key < k -> descent key l path ->
    descent key (node k l r h) (node k l r h :: path)
| descent_right (k : Z) (l r : AVLNode) (h : Z) (path : list AVLNode) :
    k < key -> descent key r path ->
    descent key (node k l r h) (node k l r h :: path).

End AVL.

(** ** The specification's wording of the flat search (sections 4.1, 4.2)

    Kept apart from the code: mathematical integers, the midpoint rule as a
    formula, and the loop as the relation between a range and what searching
    it records and answers. *)

Module FlatBinarySearch.

Definition midpoint (lo hi : Z) : Z := (lo + hi + 1) / 2.

Inductive answer : Type :=
| Found (index : Z)
| NotFound.

(** The code's encoding of an answer: the index, or -1. *)
Definition int_of_answer (a : answer) : Z :=
  match a with
  | Found i => i
  | NotFound => -1
  end.

(** [probes seq target lo hi probePath a]: the loop entered with the range
    [lo .. hi] probes exactly [probePath], in order, and answers [a]. *)
Inductive probes (seq : list Z) (target : Z) : Z -> Z -> list Z -> answer -> Prop :=
| probes_exhausted (lo hi : Z) :
    hi < lo -> probes seq target lo hi [] NotFound
| probes_found (lo hi : Z) :
    lo <= hi -> vec_at seq (midpoint lo hi) = Some target ->
    probes seq target lo hi [midpoint lo hi] (Found (midpoint lo hi))
| probes_right (lo hi x : Z) (probePath : list Z) (a : answer) :
    lo <= hi -> vec_at seq (midpoint lo hi) = Some x -> x < target ->
    probes seq target (midpoint lo hi + 1) hi probePath a ->
    probes seq target lo hi (midpoint lo hi :: probePath) a
| probes_left (lo hi x : Z) (probePath : list Z) (a : answer) :
    lo <= hi -> vec_at seq (midpoint lo hi) = Some x -> target < x ->
    probes seq target lo (midpoint lo hi - 1) probePath a ->
    probes seq target lo hi (midpoint lo hi :: probePath) a.

(** A sequence sorted ascending. *)
Definition sorted (seq : list Z) : Prop := StronglySorted Z.le seq.

(** The longest sequence whose ranges stay inside [int]: 2^30 elements. *)
Definition MAX_LENGTH : Z := 1073741824.

End FlatBinarySearch.

(** ** Further vocabulary: the shape of a rebuilt tree *)

Module Shape.

Import AVL.

(** The number of nodes under a pointer. *)
Fixpoint count (p : AVLNode) : Z :=
  match p with
  | nullptr => 0
  | node _ l r _ => 1 + count l + count r
  end.

(** At every node the left subtree holds as many keys as the right one, or
    one more: the trace of the upper midpoint. *)
Fixpoint left_biased (p : AVLNode) : Prop :=
  match p with
  | nullptr => True
  | node _ l r _ =>
      0 <= count l - count r <= 1 /\ left_biased l /\ left_biased r
  end.

End Shape.

(** ** a02_V5.cpp: the drawing of the tree

    [isNodeInPath] and [drawTree].  A node pointer is the node it points to
    (as in [getSearchPath]), and [p == node], which the code decides on
    addresses, is decided here on the nodes.  The two agree on the drawings
    the driver makes, and only there: the tree has all its keys different
    and the path is the search path just taken in that same tree, and two
    pointers into one such tree are equal exactly when the nodes are (lemmas
    [subtree_count], [subtree_positions_differ]).  They differ on a tree with
    two equal subtrees and on a path kept from a tree since rebuilt, where
    equal nodes sit at different addresses; so what is stated of the colours
    is stated of a tree the driver can observe drawn with its own search
    path, and what is stated of every tree and every path does not depend on
    the colours.  The [float] coordinates are kept abstract: the type
    and its three operations are parameters.  What [drawTree] hands to
    [window.draw] is the list of shapes, in the order of the calls; the
    radius, outline and character size are the same for every node, and the
    origin of a text comes from the font, so a shape keeps its position, its
    colours and its label. *)

Module Drawing.

Import AVL.

Fixpoint ptr_eqb (p q : AVLNode) : bool :=
  match p, q with
  | nullptr, nullptr => true
  | node k l r h, node k' l' r' h' =>
      (k =? k') && ptr_eqb l l' && ptr_eqb r r' && (h =? h')
  | _, _ => false
  end.

Fixpoint isNodeInPath (nd : AVLNode) (path : list AVLNode) : bool :=
  match path with
  | [] => false
  | p :: rest => if ptr_eqb p nd then true else isNodeInPath nd rest
  end.

Inductive color : Type := Red | Yellow.

Definition is_red (c : color) : bool :=
  match c with
  | Red => true
  | Yellow => false
  end.

Section Canvas.

Variable float : Type.
Variables fadd fsub : float -> float -> float.
(** [horizontalOffset / 2]. *)
Variable fhalf : float -> float.
(** [radius = 30.f] and [verticalSpacing = 100.f]. *)
Variables radius verticalSpacing : float.

(** A call of [window.draw]: the two vertices of an edge with their
    colours, a circle with its fill colour, or the text of a key (the key
    itself stands for [std::to_string(node->key)]). *)
Inductive drawn : Type :=
| Line (x1 y1 : float) (c1 : color) (x2 y2 : float) (c2 : color)
| Circle (x y : float) (fill : color)
| Text (x y : float) (label : Z).

Fixpoint drawTree (nd : AVLNode) (x y horizontalOffset : float)
  (searchPath : list AVLNode) {struct nd} : list drawn :=
  match nd with
  | nullptr => []
  | node k l r _ =>
      let highlight := isNodeInPath nd searchPath in
      (match l with
       | nullptr => []
       | node _ _ _ _ =>
           let childX := fsub x horizontalOffset in
           let childY := fadd y verticalSpacing in
           let childHighlight := highlight && isNodeInPath l searchPath in
           Line x (fadd y radius) (if childHighlight then Red else Yellow)
                childX (fsub childY radius) (if childHighlight then Red else Yellow)
             :: drawTree l childX childY (fhalf horizontalOffset) searchPath
       end)
      ++ (match r with
          | nullptr => []
          | node _ _ _ _ =>
              let childX := fadd x horizontalOffset in
              let childY := fadd y verticalSpacing in
              let childHighlight := highlight && isNodeInPath r searchPath in
              Line x (fadd y radius) (if childHighlight then Red else Yellow)
                   childX (fsub childY radius) (if childHighlight then Red else Yellow)
                :: drawTree r childX childY (fhalf horizontalOffset) searchPath
          end)
      ++ [Circle x y (if highlight then Red else Yellow); Text x y k]
  end.

(** Readings of a list of shapes: the fill colours of the circles, the
    labels of the texts, the colours of the edges, each in drawing order. *)
Definition fill_colors (ds : list drawn) : list color :=
  flat_map (fun d => match d with Circle _ _ c => [c] | _ => [] end) ds.

Definition labels (ds : list drawn) : list Z :=
  flat_map (fun d => match d with Text _ _ k => [k] | _ => [] end) ds.

Definition edge_colors (ds : list drawn) : list (color * color) :=
  flat_map (fun d => match d with Line _ _ c1 _ _ c2 => [(c1, c2)] | _ => [] end) ds.

(** The labels of the circles filled red: [drawTree] draws each circle and
    its text one after the other, so the n-th text labels the n-th circle. *)
Definition red_labels (ds : list drawn) : list Z :=
  map snd (filter (fun ck => is_red (fst ck)) (combine (fill_colors ds) (labels ds))).

Definition red_edges (ds : list drawn) : list (color * color) :=
  filter (fun cc => is_red (fst cc) && is_red (snd cc)) (edge_colors ds).

End Canvas.

(** The nodes under a pointer in the order [drawTree] draws their circles:
    left subtree, right subtree, the node. *)
Fixpoint postorder (p : AVLNode) : list AVLNode :=
  match p with
  | nullptr => []
  | node _ l r _ => postorder l ++ postorder r ++ [p]
  end.

(** The fill colour [drawTree] gives the circle of a node, and the key it
    writes in it. *)
Definition shade (path : list AVLNode) (n : AVLNode) : color :=
  if isNodeInPath n path then Red else Yellow.

Definition key_at (n : AVLNode) : Z :=
  match n with
  | nullptr => 0
  | node k _ _ _ => k
  end.

(** The keys in that order. *)
Fixpoint postorder_keys (p : AVLNode) : list Z :=
  match p with
  | nullptr => []
  | node k l r _ => postorder_keys l ++ postorder_keys r ++ [k]
  end.

(** The node reached from [p] by a list of turns ([true] for left). *)
Fixpoint subtree_at (p : AVLNode) (turns : list bool) {struct turns} : option AVLNode :=
  match turns with
  | [] => Some p
  | left_turn :: turns' =>
      match p with
      | nullptr => None
      | node _ l r _ => subtree_at (if left_turn then l else r) turns'
      end
  end.

End Drawing.

(** ** a02_V5.cpp: the event handling of [main]

    The state of the loop that matters to the tree, and what one pass of the
    loop does to it.  The window, the clock and the mouse are the
    environment: an event arrives with the results of the two hit tests
    ([insertRect.contains(mousePos)], [searchRect.contains(mousePos)]) or with
    its code point; a pass is told whether the insertion delay has elapsed.
    Rendering is left to [Drawing]; a call of [animateTask] is recorded with
    its message and path (the events it polls while it waits only close the
    window).  Closing the window ends the loop and changes nothing else, so
    the window is not part of the state.  An [sf::String] is the list of its
    code points. *)

Module Driver.

Import AVL.

Definition elements : list Z :=
  [15; 23; 29; 33; 37; 41; 44; 49; 52; 54; 60; 62; 68; 70; 75; 85; 90; 95; 100; 110].

Definition numElements : Z := int_of_size_t (size elements).

Record state : Type := mkState {
  avl : AVLTree;
  insertionIndex : Z;
  initialTreeComplete : bool;
  userInputInsert : list Z;
  userInputSearch : list Z;
  isTypingInsert : bool;
  isTypingSearch : bool
}.

(** The state at the first pass of the main loop. *)
Definition initial : state := mkState empty 0 false [] [] false false.

(** A call of [animateTask]: the message and the path to highlight. *)
Inductive task : Type :=
| SayInserting (v : Z)
| SayFound (v : Z) (path : list AVLNode)
| SayNotFound (v : Z) (path : list AVLNode).

Inductive event : Type :=
| Closed
| MouseButtonPressed (inInsertBox inSearchBox : bool)
| TextEntered (unicode : Z)
| OtherEvent.

(** [atoi] of the C library: white space, an optional sign, then decimal
    digits up to the first other character; a value outside [int] is
    undefined behaviour. *)
Definition isspace (c : Z) : bool := (c =? 32) || ((9 <=? c) && (c <=? 13)).
Definition isdigit (c : Z) : bool := (48 <=? c) && (c <=? 57).

Fixpoint skip_spaces (s : list Z) : list Z :=
  match s with
  | [] => []
  | c :: r => if isspace c then skip_spaces r else s
  end.

Fixpoint digits_value (acc : Z) (s : list Z) : Z :=
  match s with
  | [] => acc
  | c :: r => if isdigit c then digits_value (10 * acc + (c - 48)) r else acc
  end.

Definition atoi (s : list Z) : outcome Z :=
  let s1 := skip_spaces s in
  let v :=
    match s1 with
    | [] => 0
    | c :: r =>
        if c =? 45 then - digits_value 0 r
        else if c =? 43 then digits_value 0 r
        else digits_value 0 s1
    end in
  if (INT_MIN <=? v) && (v <=? INT_MAX) then Done v else Fault.

Definition isEmpty (s : list Z) : bool :=
  match s with
  | [] => true
  | _ :: _ => false
  end.

(** The characters the boxes accept: a digit or the minus sign. *)
Definition accepted (c : Z) : bool := isdigit c || (c =? 45).

(** The body of [if (initialTreeComplete)] for one event.  [c] is
    [static_cast<char>(event.text.unicode)], taken in [0 .. 255]: the
    comparisons are with characters below 128, so the sign of [char] does
    not matter. *)
Definition handleEvent (ev : event) (s : state) : outcome (state * list task) :=
  match ev with
  | MouseButtonPressed inInsertBox inSearchBox =>
      if inInsertBox then
        Done (mkState (avl s) (insertionIndex s) (initialTreeComplete s)
                (userInputInsert s) (userInputSearch s) true false, [])
      else if inSearchBox then
        Done (mkState (avl s) (insertionIndex s) (initialTreeComplete s)
                (userInputInsert s) (userInputSearch s) false true, [])
      else
        Done (mkState (avl s) (insertionIndex s) (initialTreeComplete s)
                (userInputInsert s) (userInputSearch s) false false, [])
  | TextEntered unicode =>
      let c := unicode mod 256 in
      if c =? 13 then
        if isTypingInsert s && negb (isEmpty (userInputInsert s)) then
          newVal <- atoi (userInputInsert s) ;;
          avl' <- insert newVal (avl s) ;;
          Done (mkState avl' (insertionIndex s) (initialTreeComplete s)
                  [] (userInputSearch s) (isTypingInsert s) (isTypingSearch s),
                [SayInserting newVal])
        else if isTypingSearch s && negb (isEmpty (userInputSearch s)) then
          searchVal <- atoi (userInputSearch s) ;;
          let path := getSearchPath (avl s) searchVal in
          found <- main_found path searchVal ;;
          Done (mkState (avl s) (insertionIndex s) (initialTreeComplete s)
                  (userInputInsert s) [] (isTypingInsert s) (isTypingSearch s),
                [if found then SayFound searchVal path else SayNotFound searchVal path])
        else Done (s, [])
      else if c =? 8 then
        if isTypingInsert s && negb (isEmpty (userInputInsert s)) then
          Done (mkState (avl s) (insertionIndex s) (initialTreeComplete s)
                  (removelast (userInputInsert s)) (userInputSearch s)
                  (isTypingInsert s) (isTypingSearch s), [])
        else if isTypingSearch s && negb (isEmpty (userInputSearch s)) then
          Done (mkState (avl s) (insertionIndex s) (initialTreeComplete s)
                  (userInputInsert s) (removelast (userInputSearch s))
                  (isTypingInsert s) (isTypingSearch s), [])
        else Done (s, [])
      else if accepted c then
        if isTypingInsert s then
          Done (mkState (avl s) (insertionIndex s) (initialTreeComplete s)
                  (userInputInsert s ++ [c]) (userInputSearch s)
                  (isTypingInsert s) (isTypingSearch s), [])
        else if isTypingSearch s then
          Done (mkState (avl s) (insertionIndex s) (initialTreeComplete s)
                  (userInputInsert s) (userInputSearch s ++ [c])
                  (isTypingInsert s) (isTypingSearch s), [])
        else Done (s, [])
      else Done (s, [])
  | Closed => Done (s, [])
  | OtherEvent => Done (s, [])
  end.

(** The inner [while (window.pollEvent(event))] loop. *)
Fixpoint pollEvents (evs : list event) (s : state) : outcome (state * list task) :=
  match evs with
  | [] => Done (s, [])
  | ev :: evs' =>
      r <- (if initialTreeComplete s then handleEvent ev s else Done (s, [])) ;;
      r' <- pollEvents evs' (fst r) ;;
      Done (fst r', snd r ++ snd r')
  end.

(** The automatic insertion of the initial array; [elapsed] says whether
    [insertionClock] has reached [insertionDelay]. *)
Definition autoInsert (elapsed : bool) (s : state) : outcome (state * list task) :=
  if negb (initialTreeComplete s) && (insertionIndex s <? numElements) then
    if elapsed then
      x <- at_index elements (insertionIndex s) ;;
      avl' <- insert x (avl s) ;;
      let index := int_add (insertionIndex s) 1 in
      Done (mkState avl' index
              (if index =? numElements then true else initialTreeComplete s)
              (userInputInsert s) (userInputSearch s)
              (isTypingInsert s) (isTypingSearch s),
            [SayInserting x])
    else Done (s, [])
  else Done (s, []).

(** One pass of the main loop: the pending events, then the automatic
    insertion. *)
Definition pass (evs : list event) (elapsed : bool) (s : state) : outcome (state * list task) :=
  r <- pollEvents evs s ;;
  r' <- autoInsert elapsed (fst r) ;;
  Done (fst r', snd r ++ snd r').

Fixpoint passes (ps : list (list event * bool)) (s : state) : outcome state :=
  match ps with
  | [] => Done s
  | (evs, elapsed) :: ps' => r <- pass evs elapsed s ;; passes ps' (fst r)
  end.

(** What every pass keeps. *)
Definition steady (s : state) : Prop :=
  reachable (avl s)
  /\ isTypingInsert s && isTypingSearch s = false
  /\ forallb accepted (userInputInsert s) = true
  /\ forallb accepted (userInputSearch s) = true
  /\ 0 <= insertionIndex s <= numElements
  /\ (initialTreeComplete s = true <-> insertionIndex s = numElements)
  /\ (initialTreeComplete s = false ->
      userInputInsert s = [] /\ userInputSearch s = []
      /\ isTypingInsert s = false /\ isTypingSearch s = false
      /\ sortedElements (avl s) = firstn (Z.to_nat (insertionIndex s)) elements).

(** The tree once the initial array is inserted, and the state with that
    tree, the search box active and holding [110]. *)
Definition initial_tree : AVLTree :=
  Eval vm_compute in
    match perform_all (map Insert elements) empty with
    | Done t => t
    | _ => empty
    end.

Definition demo_search_state : state :=
  mkState initial_tree 20 true [] [49; 49; 48] false true.

(** The passes that fill the initial tree, then a click in the insert box,
    the characters [7], [-], [3], and Enter. *)
Definition demo_passes : list (list event * bool) :=
  repeat ([], true) 20
  ++ [([MouseButtonPressed true false; TextEntered 55; TextEntered 45; TextEntered 51;
        TextEntered 13], false)].

End Driver.

(** ** Inputs used below *)

(** The keys the driver inserts first, in its order, and the tree they give. *)
Definition demo_keys : list Z := [15; 23; 29; 33; 37; 41; 44; 49; 52; 54].

Definition demo_requests : list AVL.request := map AVL.Insert demo_keys.

Definition demo_tree : AVL.AVLTree :=
  Eval vm_compute in
    match AVL.perform_all demo_requests AVL.empty with
    | Done t => t
    | _ => AVL.empty
    end.

Definition demo_tree_60 : AVL.AVLTree :=
  Eval vm_compute in
    match AVL.insert 60 demo_tree with
    | Done t => t
    | _ => AVL.empty
    end.

(** The array of [BinarySearch.cpp]'s [main]. *)
Definition demo_array : list Z :=
  [15; 23; 29; 33; 37; 41; 44; 49; 52; 54; 60; 62; 68; 70; 75; 85; 90; 95; 100; 110].

(** The same keys asked for in the opposite order, with a key 7 that
    comes and goes on the way. *)
Definition demo_requests_reversed : list AVL.request :=
  map AVL.Insert (rev demo_keys) ++ [AVL.Insert 7; AVL.Remove 7].

Definition demo_tree_reversed : AVL.AVLTree :=
  Eval vm_compute in
    match AVL.perform_all demo_requests_reversed AVL.empty with
    | Done t => t
    | _ => AVL.empty
    end.

(** The tree holding the single key 5. *)
Definition tree_5 : AVL.AVLTree :=
  AVL.mkTree (AVL.node 5 AVL.nullptr AVL.nullptr 1) [5].

(** [n] zeros, and the keys [0, 1, ..., n-1]: vectors of any size, used at
    sizes near [INT_MAX]. *)
Definition zeros (n : Z) : list Z := repeat 0 (Z.to_nat n).

Definition iota (n : Z) : list Z := map Z.of_nat (seq 0 (Z.to_nat n)).

(** * Properties *)

Import AVL FlatBinarySearch.

(** ** Arithmetic of the machine integers *)

Section IntArith.

Lemma wrap_small (z : Z) : INT_MIN <= z <= INT_MAX -> wrap z = z.
Proof.
  unfold INT_MIN, INT_MAX, wrap. intros Hz.
  rewrite Z.mod_small; lia.
Qed.

Lemma wrap_high (z : Z) :
  INT_MAX < z <= INT_MAX + 4294967296 -> wrap z = z - 4294967296.
Proof.
  unfold INT_MAX, wrap. intros Hz.
  replace (z + 2147483648) with ((z - 2147483648) + 1 * 4294967296) by ring.
  rewrite Z.mod_add by discriminate.
  rewrite Z.mod_small; lia.
Qed.

Lemma wrap_range (z : Z) : INT_MIN <= wrap z <= INT_MAX.
Proof.
  unfold INT_MIN, INT_MAX, wrap.
  pose proof (Z.mod_pos_bound (z + 2147483648) 4294967296 eq_refl). lia.
Qed.

Lemma wrap_wrap_add (a b : Z) : wrap (wrap a + b) = wrap (a + b).
Proof.
  unfold wrap.
  replace ((a + 2147483648) mod 4294967296 - 2147483648 + b + 2147483648)
    with ((a + 2147483648) mod 4294967296 + b) by ring.
  rewrite Z.add_mod_idemp_l by discriminate.
  f_equal. f_equal. ring.
Qed.

Lemma int_add_small (a b : Z) : INT_MIN <= a + b <= INT_MAX -> int_add a b = a + b.
Proof. apply wrap_small. Qed.

Lemma int_sub_small (a b : Z) : INT_MIN <= a - b <= INT_MAX -> int_sub a b = a - b.
Proof. apply wrap_small. Qed.

Lemma int_of_size_t_sub (n : Z) :
  0 <= n <= INT_MAX -> int_of_size_t (size_sub n 1) = n - 1.
Proof.
  unfold int_of_size_t, size_sub, INT_MAX. intros Hn.
  destruct (Z.eq_dec n 0) as [-> | Hnz]; [reflexivity|].
  rewrite Z.mod_small by lia.
  apply wrap_small. unfold INT_MIN, INT_MAX. lia.
Qed.

(** Without overflow the code's midpoint is the upper middle of the range. *)
Lemma upper_mid_exact (low high : Z) :
  0 <= low + high + 1 <= INT_MAX -> upper_mid low high = (low + high + 1) / 2.
Proof.
  unfold upper_mid, int_div, int_add, INT_MAX. intros H.
  rewrite wrap_wrap_add.
  rewrite (wrap_small (low + high + 1)) by (unfold INT_MIN, INT_MAX; lia).
  rewrite Z.quot_div_nonneg by lia.
  apply wrap_small.
  assert (0 <= (low + high + 1) / 2) by (apply Z.div_pos; lia).
  assert ((low + high + 1) / 2 <= low + high + 1)
    by (apply Z.div_le_upper_bound; lia).
  unfold INT_MIN, INT_MAX. lia.
Qed.

Lemma upper_mid_between (low high : Z) :
  low <= high -> low <= (low + high + 1) / 2 <= high.
Proof.
  intros H. split.
  - apply Z.div_le_lower_bound; lia.
  - assert ((low + high + 1) / 2 < high + 1)
      by (apply Z.div_lt_upper_bound; lia).
    lia.
Qed.

(** With overflow the wrapped midpoint is a negative index. *)
Lemma upper_mid_overflow (low high : Z) :
  0 <= low -> low <= high -> high < INT_MAX -> INT_MAX < low + high + 1 ->
  upper_mid low high < 0.
Proof.
  unfold upper_mid, int_div, int_add, INT_MAX. intros H0 H1 H2 H3.
  rewrite wrap_wrap_add.
  rewrite (wrap_high (low + high + 1)) by (unfold INT_MAX; lia).
  set (s := low + high + 1 - 4294967296).
  assert (Hs : -2147483648 <= s <= -3) by (unfold s; lia).
  assert (Hq : -2147483648 <= Z.quot s 2 <= -1).
  { rewrite <- (Z.opp_involutive s), Z.quot_opp_l by discriminate.
    rewrite Z.quot_div_nonneg by lia.
    assert (1 <= (- s) / 2) by (apply Z.div_le_lower_bound; lia).
    assert ((- s) / 2 <= 2147483648) by (apply Z.div_le_upper_bound; lia).
    lia. }
  rewrite wrap_small by (unfold INT_MIN, INT_MAX; lia). lia.
Qed.

End IntArith.

(** ** Lists as vectors *)

Section Vectors.

Lemma vec_at_Some {A : Type} (v : list A) (i : Z) :
  0 <= i < size v -> exists x, nth_error v (Z.to_nat i) = Some x /\ vec_at v i = Some x.
Proof.
  unfold size, vec_at. intros Hi.
  destruct (nth_error v (Z.to_nat i)) as [x|] eqn:E.
  - exists x. split; [reflexivity|].
    destruct (i <? 0) eqn:Hn; [apply Z.ltb_lt in Hn; lia | reflexivity].
  - apply nth_error_None in E. lia.
Qed.

Lemma vec_at_negative {A : Type} (v : list A) (i : Z) : i < 0 -> vec_at v i = None.
Proof.
  unfold vec_at. intros Hi. apply Z.ltb_lt in Hi. now rewrite Hi.
Qed.

Lemma vec_at_inside {A : Type} (v : list A) (i : Z) (x : A) :
  vec_at v i = Some x -> 0 <= i < size v.
Proof.
  unfold vec_at, size. destruct (i <? 0) eqn:Hn; [discriminate|].
  apply Z.ltb_ge in Hn. intros E.
  assert (Z.to_nat i < length v)%nat by (apply nth_error_Some; congruence).
  lia.
Qed.

Lemma firstn_cut {A : Type} (s : list A) :
  forall (i n : nat) (x : A),
    nth_error s i = Some x -> (i < n)%nat ->
    firstn n s = firstn i s ++ x :: firstn (n - S i) (skipn (S i) s).
Proof.
  induction s as [|y s IH]; intros i n x Hx Hin.
  - destruct i; discriminate.
  - destruct n as [|n]; [lia|].
    destruct i as [|i]; simpl in Hx.
    + injection Hx as ->. simpl. now rewrite Nat.sub_0_r.
    + simpl. f_equal. apply IH; [assumption | lia].
Qed.

End Vectors.

Section Slices.

Lemma slice_split (v : list Z) (start mid end_ k : Z) :
  0 <= start -> start <= mid -> mid <= end_ ->
  nth_error v (Z.to_nat mid) = Some k ->
  slice v start end_ = slice v start (mid - 1) ++ k :: slice v (mid + 1) end_.
Proof.
  intros H0 H1 H2 Hk. unfold slice.
  rewrite (firstn_cut (skipn (Z.to_nat start) v) (Z.to_nat (mid - start))
             (Z.to_nat (end_ - start + 1)) k).
  - rewrite skipn_skipn.
    replace (mid - 1 - start + 1) with (mid - start) by ring.
    replace (S (Z.to_nat (mid - start)) + Z.to_nat start)%nat
      with (Z.to_nat (mid + 1)) by lia.
    replace (Z.to_nat (end_ - start + 1) - S (Z.to_nat (mid - start)))%nat
      with (Z.to_nat (end_ - (mid + 1) + 1)) by lia.
    reflexivity.
  - rewrite nth_error_skipn.
    replace (Z.to_nat start + Z.to_nat (mid - start))%nat with (Z.to_nat mid) by lia.
    exact Hk.
  - lia.
Qed.

Lemma slice_empty (v : list Z) (start end_ : Z) : end_ < start -> slice v start end_ = [].
Proof.
  intros H. unfold slice.
  replace (Z.to_nat (end_ - start + 1)) with O by lia. reflexivity.
Qed.

Lemma slice_all (v : list Z) : slice v 0 (size v - 1) = v.
Proof.
  unfold slice, size. simpl skipn.
  replace (Z.to_nat (Z.of_nat (length v) - 1 - 0 + 1)) with (length v) by lia.
  apply firstn_all.
Qed.

End Slices.

Section Logarithm.

Lemma log2_up_halves (d a : Z) :
  1 <= d -> 2 * a <= d <= 2 * a + 1 -> Z.log2_up (d + 1) = 1 + Z.log2_up (a + 1).
Proof.
  intros Hd Ha.
  destruct (Z.eq_dec d (2 * a)) as [E | E].
  - subst d. assert (1 <= a) by lia.
    rewrite (Z.log2_up_eqn (2 * a + 1)) by lia.
    rewrite (Z.log2_up_eqn (a + 1)) by lia.
    replace (Z.pred (2 * a + 1)) with (2 * a) by lia.
    replace (Z.pred (a + 1)) with a by lia.
    rewrite Z.log2_double by lia. lia.
  - replace (d + 1) with (2 * (a + 1)) by lia.
    rewrite Z.log2_up_double by lia. lia.
Qed.

Lemma log2_up_small (n : Z) : 0 <= n -> n + 1 <= 2147483648 -> 0 <= Z.log2_up (n + 1) <= 31.
Proof.
  intros H0 H1. split; [apply Z.log2_up_nonneg|].
  apply Z.log2_up_le_pow2; [lia|]. exact H1.
Qed.

Lemma log2_up_neighbours (a b : Z) :
  0 <= b -> b <= a <= b + 1 ->
  Z.max (Z.log2_up (a + 1)) (Z.log2_up (b + 1)) = Z.log2_up (a + 1)
  /\ Z.abs (Z.log2_up (a + 1) - Z.log2_up (b + 1)) <= 1.
Proof.
  intros Hb Hab.
  assert (M : Z.log2_up (b + 1) <= Z.log2_up (a + 1))
    by (apply Z.log2_up_le_mono; lia).
  assert (U : Z.log2_up (a + 1) <= Z.log2_up (b + 1) + 1).
  { transitivity (Z.log2_up (Z.succ (b + 1))).
    - apply Z.log2_up_le_mono. lia.
    - pose proof (Z.log2_up_succ_le (b + 1)). lia. }
  split; lia.
Qed.

End Logarithm.

(** ** The balanced build *)

Section Build.

Lemma heights_stored_depth (p : AVLNode) : heights_stored p -> height p = depth p.
Proof.
  induction p as [|k l IHl r IHr h]; simpl; [reflexivity|].
  intros (Hh & Hl & Hr). rewrite Hh, (IHl Hl), (IHr Hr). reflexivity.
Qed.

Lemma midpoint_halves (start end_ : Z) :
  2 * ((start + end_ + 1) / 2) <= start + end_ + 1 <= 2 * ((start + end_ + 1) / 2) + 1.
Proof.
  pose proof (Z.div_mod (start + end_ + 1) 2 ltac:(discriminate)).
  pose proof (Z.mod_pos_bound (start + end_ + 1) 2 eq_refl). lia.
Qed.

(** Inside the [int] range the recursion returns, and what it returns is the
    balanced tree of the slice. *)
Lemma buildBalancedTree_range (elems : list Z) :
  forall (fuel : nat) (start end_ : Z),
    0 <= start -> start <= end_ + 1 -> end_ < size elems ->
    2 * end_ < INT_MAX ->
    end_ - start + 1 < Z.of_nat fuel ->
    exists t,
      buildBalancedTree fuel elems start end_ = Done t
      /\ inorder t = slice elems start end_
      /\ heights_stored t
      /\ depth t = Z.log2_up (end_ - start + 2)
      /\ balanced t.
Proof.
  induction fuel as [|fuel IH]; intros start end_ H0 H1 H2 H3 H4; [lia|].
  cbn [buildBalancedTree].
  destruct (start >? end_) eqn:G.
  - apply Z.gtb_lt in G. exists nullptr.
    rewrite slice_empty by lia.
    replace (end_ - start + 2) with 1 by lia.
    simpl. auto.
  - rewrite Z.gtb_ltb in G. apply Z.ltb_ge in G.
    unfold INT_MAX in H3.
    rewrite upper_mid_exact by (unfold INT_MAX; lia).
    set (mid := (start + end_ + 1) / 2).
    pose proof (upper_mid_between start end_ G) as Hmid. fold mid in Hmid.
    pose proof (midpoint_halves start end_) as Hhalf. fold mid in Hhalf.
    destruct (vec_at_Some elems mid ltac:(lia)) as (k & Hn & Hv).
    unfold at_index. rewrite Hv. cbn [bind].
    rewrite int_sub_small, int_add_small by (unfold INT_MIN, INT_MAX; lia).
    destruct (IH start (mid - 1)) as (l & El & Il & Sl & Dl & Bl);
      [lia | lia | lia | unfold INT_MAX; lia | lia |].
    destruct (IH (mid + 1) end_) as (r & Er & Ir & Sr & Dr & Br);
      [lia | lia | lia | unfold INT_MAX; lia | lia |].
    rewrite El, Er. cbn [bind].
    replace (mid - 1 - start + 2) with ((mid - start) + 1) in Dl by ring.
    replace (end_ - (mid + 1) + 2) with ((end_ - mid) + 1) in Dr by ring.
    destruct (log2_up_neighbours (mid - start) (end_ - mid)) as (Hmax & Habs);
      [lia | lia |].
    assert (Hlog : Z.log2_up (end_ - start + 1 + 1) = 1 + Z.log2_up (mid - start + 1))
      by (apply log2_up_halves; lia).
    pose proof (log2_up_small (mid - start) ltac:(lia) ltac:(lia)) as Hsmall.
    rewrite (heights_stored_depth l Sl), (heights_stored_depth r Sr), Dl, Dr, Hmax.
    rewrite int_add_small by (unfold INT_MIN, INT_MAX; lia).
    eexists. split; [reflexivity|].
    cbn [inorder heights_stored depth balanced].
    rewrite (heights_stored_depth l Sl), (heights_stored_depth r Sr), Dl, Dr, Hmax, Il, Ir.
    repeat split; try assumption.
    + symmetry. apply slice_split; [lia | lia | lia | exact Hn].
    + replace (end_ - start + 2) with (end_ - start + 1 + 1) by ring.
      symmetry. exact Hlog.
Qed.

End Build.

Section BuildLimits.

(** Once [start + end_ + 1] can leave the [int] range the recursion reaches
    an out-of-range read on its rightmost branch. *)
Lemma buildBalancedTree_overflow (elems : list Z) :
  forall (fuel : nat) (start end_ : Z),
    0 <= start -> start <= end_ -> end_ < size elems ->
    MAX_KEYS <= end_ -> end_ < INT_MAX ->
    end_ - start + 1 < Z.of_nat fuel ->
    buildBalancedTree fuel elems start end_ = Fault.
Proof.
  unfold MAX_KEYS, INT_MAX.
  induction fuel as [|fuel IH]; intros start end_ H0 H1 H2 H3 H4 H5; [lia|].
  cbn [buildBalancedTree].
  destruct (start >? end_) eqn:G; [apply Z.gtb_lt in G; lia|].
  destruct (Z_le_gt_dec (start + end_ + 1) INT_MAX) as [Hin | Hout]; unfold INT_MAX in *.
  - rewrite upper_mid_exact by (unfold INT_MAX; lia).
    set (mid := (start + end_ + 1) / 2).
    pose proof (upper_mid_between start end_ H1) as Hmid. fold mid in Hmid.
    pose proof (midpoint_halves start end_) as Hhalf. fold mid in Hhalf.
    destruct (vec_at_Some elems mid ltac:(lia)) as (k & Hn & Hv).
    unfold at_index. rewrite Hv. cbn [bind].
    rewrite int_sub_small, int_add_small by (unfold INT_MIN, INT_MAX; lia).
    destruct (buildBalancedTree_range elems fuel start (mid - 1))
      as (l & El & _); [lia | lia | lia | unfold INT_MAX; lia | lia |].
    rewrite El. cbn [bind].
    rewrite IH by lia. reflexivity.
  - pose proof (upper_mid_overflow start end_ H0 H1 ltac:(unfold INT_MAX; lia)
                  ltac:(unfold INT_MAX; lia)) as Hneg.
    unfold at_index. rewrite (vec_at_negative elems _ Hneg). reflexivity.
Qed.

Lemma rebuild_end (elems : list Z) :
  size elems <= INT_MAX -> int_sub (int_of_size_t (size elems)) 1 = size elems - 1.
Proof.
  intros H. assert (0 <= size elems) by (unfold size; lia).
  unfold int_of_size_t. rewrite wrap_small by (unfold INT_MIN, INT_MAX in *; lia).
  apply int_sub_small. unfold INT_MIN, INT_MAX in *. lia.
Qed.

(** Up to 2^30 keys the rebuild returns the balanced tree of the vector. *)
Lemma rebuild_correct (elems : list Z) :
  size elems <= MAX_KEYS ->
  exists t,
    rebuild elems = Done t
    /\ inorder t = elems
    /\ heights_stored t
    /\ depth t = Z.log2_up (size elems + 1)
    /\ balanced t.
Proof.
  unfold MAX_KEYS. intros Hn. assert (0 <= size elems) by (unfold size; lia).
  unfold rebuild. rewrite rebuild_end by (unfold INT_MAX; lia).
  destruct (buildBalancedTree_range elems (S (length elems)) 0 (size elems - 1))
    as (t & Et & It & St & Dt & Bt);
    [lia | lia | lia | unfold INT_MAX; lia | unfold size; lia |].
  exists t. rewrite slice_all in It.
  replace (size elems - 1 - 0 + 2) with (size elems + 1) in Dt by ring.
  auto.
Qed.

(** Beyond 2^30 keys (and up to [INT_MAX]) it does not return. *)
Lemma rebuild_overflow (elems : list Z) :
  MAX_KEYS < size elems <= INT_MAX -> rebuild elems = Fault.
Proof.
  unfold MAX_KEYS. intros Hn.
  unfold rebuild. rewrite rebuild_end by lia.
  apply buildBalancedTree_overflow; unfold MAX_KEYS, INT_MAX in *; unfold size in *; lia.
Qed.

End BuildLimits.

(** ** The sorted vector *)

Section SortedVector.

Lemma insert_sorted_nil (k : Z) : insert_sorted [] k = [k].
Proof. reflexivity. Qed.

Lemma insert_sorted_cons (x : Z) (v : list Z) (k : Z) :
  insert_sorted (x :: v) k =
  if x <? k then x :: insert_sorted v k
  else if x =? k then x :: v else k :: x :: v.
Proof.
  unfold insert_sorted. cbn [lower_bound].
  destruct (x <? k).
  - cbn [nth_error]. destruct (nth_error v (lower_bound v k)) as [y|].
    + destruct (negb (y =? k)); reflexivity.
    + reflexivity.
  - cbn [nth_error]. destruct (x =? k); reflexivity.
Qed.

Lemma erase_sorted_cons (x : Z) (v : list Z) (k : Z) :
  erase_sorted (x :: v) k =
  if x <? k then x :: erase_sorted v k
  else if x =? k then v else x :: v.
Proof.
  unfold erase_sorted. cbn [lower_bound].
  destruct (x <? k).
  - cbn [nth_error]. destruct (nth_error v (lower_bound v k)) as [y|].
    + destruct (y =? k); reflexivity.
    + reflexivity.
  - cbn [nth_error]. destruct (x =? k); reflexivity.
Qed.

Ltac by_cases x k :=
  let L := fresh "L" in let E := fresh "E" in
  destruct (x <? k) eqn:L; [apply Z.ltb_lt in L | apply Z.ltb_ge in L];
  [| destruct (x =? k) eqn:E; [apply Z.eqb_eq in E | apply Z.eqb_neq in E]].

Lemma In_insert_sorted (v : list Z) (k y : Z) :
  In y (insert_sorted v k) <-> y = k \/ In y v.
Proof.
  induction v as [|x v IH].
  - simpl. intuition.
  - rewrite insert_sorted_cons. by_cases x k; simpl; try rewrite IH; intuition congruence.
Qed.

Lemma In_erase_sorted (v : list Z) (k y : Z) :
  In y (erase_sorted v k) -> In y v.
Proof.
  induction v as [|x v IH].
  - simpl. intuition.
  - rewrite erase_sorted_cons. by_cases x k; simpl; intuition.
Qed.

Lemma ascending_insert (v : list Z) (k : Z) :
  ascending v -> ascending (insert_sorted v k).
Proof.
  unfold ascending. induction v as [|x v IH]; intros Hs.
  - rewrite insert_sorted_nil. repeat constructor.
  - rewrite insert_sorted_cons. inversion Hs as [|? ? Hv Hx]; subst.
    by_cases x k.
    + constructor; [auto|].
      apply Forall_forall. intros y Hy. apply In_insert_sorted in Hy.
      destruct Hy as [-> | Hy]; [assumption|].
      rewrite Forall_forall in Hx. auto.
    + assumption.
    + constructor; [assumption|].
      constructor; [lia|].
      rewrite Forall_forall in Hx. apply Forall_forall. intros y Hy.
      specialize (Hx y Hy). lia.
Qed.

Lemma ascending_erase (v : list Z) (k : Z) :
  ascending v -> ascending (erase_sorted v k).
Proof.
  unfold ascending. induction v as [|x v IH]; intros Hs.
  - exact Hs.
  - rewrite erase_sorted_cons. inversion Hs as [|? ? Hv Hx]; subst.
    by_cases x k; try assumption.
    constructor; [auto|].
    rewrite Forall_forall in Hx. apply Forall_forall. intros y Hy.
    apply Hx. eapply In_erase_sorted. exact Hy.
Qed.

Lemma size_insert_sorted (v : list Z) (k : Z) :
  size v <= size (insert_sorted v k) <= size v + 1.
Proof.
  unfold size. induction v as [|x v IH].
  - simpl. lia.
  - rewrite insert_sorted_cons. by_cases x k; simpl length; lia.
Qed.

Lemma size_erase_sorted (v : list Z) (k : Z) :
  size (erase_sorted v k) <= size v.
Proof.
  unfold size. induction v as [|x v IH].
  - simpl. lia.
  - rewrite erase_sorted_cons. by_cases x k; simpl length; lia.
Qed.

(** A second insertion of the same key finds it. *)
Lemma insert_sorted_twice (v : list Z) (k : Z) :
  insert_sorted (insert_sorted v k) k = insert_sorted v k.
Proof.
  induction v as [|x v IH].
  - rewrite insert_sorted_nil, insert_sorted_cons.
    rewrite Z.ltb_irrefl, Z.eqb_refl. reflexivity.
  - rewrite insert_sorted_cons. by_cases x k.
    + rewrite insert_sorted_cons.
      replace (x <? k) with true by (symmetry; apply Z.ltb_lt; lia).
      now rewrite IH.
    + rewrite insert_sorted_cons.
      replace (x <? k) with false by (symmetry; apply Z.ltb_ge; lia).
      replace (x =? k) with true by (symmetry; apply Z.eqb_eq; lia).
      reflexivity.
    + rewrite insert_sorted_cons.
      rewrite Z.ltb_irrefl, Z.eqb_refl. reflexivity.
Qed.

Lemma insert_sorted_present (v : list Z) (k : Z) :
  ascending v -> In k v -> insert_sorted v k = v.
Proof.
  unfold ascending. induction v as [|x v IH]; intros Hs Hin.
  - destruct Hin.
  - rewrite insert_sorted_cons. inversion Hs as [|? ? Hv Hx]; subst.
    by_cases x k.
    + destruct Hin as [-> | Hin]; [lia|]. now rewrite IH.
    + reflexivity.
    + destruct Hin as [-> | Hin]; [lia|].
      rewrite Forall_forall in Hx. specialize (Hx k Hin). lia.
Qed.

Lemma erase_sorted_absent (v : list Z) (k : Z) :
  ~ In k v -> erase_sorted v k = v.
Proof.
  induction v as [|x v IH]; intros Hn.
  - reflexivity.
  - rewrite erase_sorted_cons. by_cases x k.
    + rewrite IH; [reflexivity|]. intros H. apply Hn. now right.
    + exfalso. apply Hn. now left.
    + reflexivity.
Qed.

(** Erasing a key that was just inserted gives the vector back. *)
Lemma erase_insert_sorted (v : list Z) (k : Z) :
  ~ In k v -> erase_sorted (insert_sorted v k) k = v.
Proof.
  induction v as [|x v IH]; intros Hn.
  - rewrite insert_sorted_nil, erase_sorted_cons.
    rewrite Z.ltb_irrefl, Z.eqb_refl. reflexivity.
  - rewrite insert_sorted_cons. by_cases x k.
    + rewrite erase_sorted_cons.
      replace (x <? k) with true by (symmetry; apply Z.ltb_lt; lia).
      rewrite IH; [reflexivity|]. intros H. apply Hn. now right.
    + exfalso. apply Hn. now left.
    + rewrite erase_sorted_cons.
      rewrite Z.ltb_irrefl, Z.eqb_refl. reflexivity.
Qed.

Lemma ascending_app (l1 l2 : list Z) (x : Z) :
  ascending (l1 ++ x :: l2) ->
  ascending l1 /\ ascending l2
  /\ Forall (fun y => y < x) l1 /\ Forall (fun y => x < y) l2.
Proof.
  unfold ascending. induction l1 as [|a l1 IH]; simpl; intros Hs.
  - inversion Hs; subst. repeat split; try assumption; constructor.
  - inversion Hs as [|? ? Hv Ha]; subst.
    destruct (IH Hv) as (S1 & S2 & F1 & F2).
    repeat split; try assumption.
    + constructor; [assumption|].
      apply Forall_app in Ha. tauto.
    + constructor; [|assumption].
      rewrite Forall_forall in Ha. apply Ha. apply in_or_app. right. now left.
Qed.

End SortedVector.

(** ** States of the tree *)

Section States.

Lemma rebuild_nil : rebuild [] = Done nullptr.
Proof. reflexivity. Qed.

Lemma insert_eq (k : Z) (t : AVLTree) :
  insert k t =
  (r <- rebuild (insert_sorted (sortedElements t) k) ;;
   Done (mkTree r (insert_sorted (sortedElements t) k))).
Proof.
  unfold insert, insertRebuild.
  destruct (rebuild (insert_sorted (sortedElements t) k)); reflexivity.
Qed.

Lemma remove_eq (k : Z) (t : AVLTree) :
  remove k t =
  (r <- rebuild (erase_sorted (sortedElements t) k) ;;
   Done (mkTree r (erase_sorted (sortedElements t) k))).
Proof.
  unfold remove, deleteRebuild.
  destruct (erase_sorted (sortedElements t) k) as [|x v] eqn:E.
  - reflexivity.
  - destruct (rebuild (x :: v)); reflexivity.
Qed.

Lemma consistent_empty : consistent empty.
Proof.
  repeat split.
  - constructor.
  - discriminate.
Qed.

Lemma consistent_installed (e : list Z) (t' : AVLTree) :
  ascending e -> size e <= MAX_KEYS + 1 ->
  (r <- rebuild e ;; Done (mkTree r e)) = Done t' ->
  consistent t' /\ sortedElements t' = e.
Proof.
  intros Ha Hn H.
  destruct (rebuild e) as [r| |] eqn:R; try discriminate.
  injection H as <-. cbn [bind].
  assert (0 <= size e) by (unfold size; lia).
  destruct (Z_le_gt_dec (size e) MAX_KEYS) as [Hle | Hgt].
  - repeat split; assumption.
  - rewrite rebuild_overflow in R by (unfold MAX_KEYS, INT_MAX in *; lia).
    discriminate.
Qed.

Lemma consistent_insert (k : Z) (t t' : AVLTree) :
  consistent t -> insert k t = Done t' ->
  consistent t' /\ sortedElements t' = insert_sorted (sortedElements t) k.
Proof.
  intros (Ha & Hn & _) H. rewrite insert_eq in H.
  apply consistent_installed in H; [assumption | now apply ascending_insert |].
  pose proof (size_insert_sorted (sortedElements t) k). lia.
Qed.

Lemma consistent_remove (k : Z) (t t' : AVLTree) :
  consistent t -> remove k t = Done t' ->
  consistent t' /\ sortedElements t' = erase_sorted (sortedElements t) k.
Proof.
  intros (Ha & Hn & _) H. rewrite remove_eq in H.
  apply consistent_installed in H; [assumption | now apply ascending_erase |].
  pose proof (size_erase_sorted (sortedElements t) k). lia.
Qed.

Lemma consistent_perform_all (rqs : list request) :
  forall t t', consistent t -> perform_all rqs t = Done t' -> consistent t'.
Proof.
  induction rqs as [|rq rqs IH]; intros t t' Hc H.
  - injection H as <-. exact Hc.
  - cbn [perform_all] in H.
    destruct (perform rq t) as [t1| |] eqn:P; try discriminate.
    cbn [bind] in H. apply (IH t1 t'); [|exact H].
    destruct rq as [k | k]; cbn [perform] in P.
    + now apply (consistent_insert k t t1).
    + now apply (consistent_remove k t t1).
Qed.

Lemma consistent_reachable (t : AVLTree) : reachable t -> consistent t.
Proof.
  intros (rqs & H). exact (consistent_perform_all rqs empty t consistent_empty H).
Qed.

Lemma insert_returns (k : Z) (t : AVLTree) :
  consistent t -> size (sortedElements t) < MAX_KEYS ->
  exists t', insert k t = Done t'.
Proof.
  intros (Ha & Hn & _) Hlt. rewrite insert_eq.
  pose proof (size_insert_sorted (sortedElements t) k).
  destruct (rebuild_correct (insert_sorted (sortedElements t) k)) as (r & R & _); [lia|].
  rewrite R. cbn [bind]. eauto.
Qed.

Lemma remove_returns (k : Z) (t : AVLTree) :
  consistent t -> exists t', remove k t = Done t'.
Proof.
  intros (Ha & Hn & _). rewrite remove_eq.
  pose proof (size_erase_sorted (sortedElements t) k).
  destruct (rebuild_correct (erase_sorted (sortedElements t) k)) as (r & R & _); [lia|].
  rewrite R. cbn [bind]. eauto.
Qed.

(** Every run of at most 2^30 requests returns. *)
Lemma perform_all_returns (rqs : list request) :
  forall t, consistent t ->
    size (sortedElements t) + Z.of_nat (length rqs) <= MAX_KEYS ->
    exists t', perform_all rqs t = Done t'.
Proof.
  induction rqs as [|rq rqs IH]; intros t Hc Hn.
  - exists t. reflexivity.
  - cbn [perform_all length] in *.
    assert (exists t1, perform rq t = Done t1
                       /\ size (sortedElements t1) <= size (sortedElements t) + 1)
      as (t1 & P & Hs).
    { destruct rq as [k | k]; cbn [perform].
      - destruct (insert_returns k t Hc ltac:(lia)) as (t1 & P).
        exists t1. split; [exact P|].
        destruct (consistent_insert k t t1 Hc P) as (_ & ->).
        pose proof (size_insert_sorted (sortedElements t) k). lia.
      - destruct (remove_returns k t Hc) as (t1 & P).
        exists t1. split; [exact P|].
        destruct (consistent_remove k t t1 Hc P) as (_ & ->).
        pose proof (size_erase_sorted (sortedElements t) k). lia. }
    rewrite P. cbn [bind]. apply IH.
    + destruct rq as [k | k]; cbn [perform] in P.
      * now apply (consistent_insert k t t1).
      * now apply (consistent_remove k t t1).
    + lia.
Qed.

Lemma BST_of_ascending (p : AVLNode) : ascending (inorder p) -> BST p.
Proof.
  induction p as [|k l IHl r IHr h]; cbn [inorder BST]; [trivial|].
  intros Hs. apply ascending_app in Hs. destruct Hs as (Sl & Sr & Fl & Fr).
  auto.
Qed.

Lemma consistent_shape (t : AVLTree) :
  consistent t ->
  inorder (root t) = sortedElements t
  /\ BST (root t)
  /\ balanced (root t)
  /\ heights_stored (root t)
  /\ depth (root t) = Z.log2_up (size (sortedElements t) + 1).
Proof.
  intros (Ha & Hn & R).
  destruct (rebuild_correct (sortedElements t) Hn) as (r & R' & Ir & Sr & Dr & Br).
  rewrite R in R'. injection R' as <-.
  repeat split; try assumption.
  apply BST_of_ascending. now rewrite Ir.
Qed.

End States.

(** ** Searching the tree *)

Section Search.

Lemma searchBST_In (p : AVLNode) (k : Z) :
  BST p -> (searchBST p k = true <-> In k (inorder p)).
Proof.
  induction p as [|k0 l IHl r IHr h]; cbn [BST searchBST inorder].
  - intros _. split; [discriminate | intros []].
  - intros (Fl & Fr & Bl & Br).
    rewrite Forall_forall in Fl, Fr.
    rewrite in_app_iff. cbn [In].
    destruct (k0 =? k) eqn:E; [apply Z.eqb_eq in E | apply Z.eqb_neq in E].
    + split; auto.
    + destruct (k <? k0) eqn:L; [apply Z.ltb_lt in L | apply Z.ltb_ge in L].
      * rewrite (IHl Bl). split; [auto|].
        intros [H | [H | H]]; [assumption | congruence |].
        specialize (Fr k H). lia.
      * rewrite (IHr Br). split; [auto|].
        intros [H | [H | H]]; [| congruence | assumption].
        specialize (Fl k H). lia.
Qed.

Lemma searchPathFrom_descent (p : AVLNode) (k : Z) : descent k p (searchPathFrom p k).
Proof.
  induction p as [|k0 l IHl r IHr h]; cbn [searchPathFrom].
  - constructor.
  - destruct (k0 =? k) eqn:E; [apply Z.eqb_eq in E | apply Z.eqb_neq in E].
    + subst k0. constructor.
    + destruct (k <? k0) eqn:L; [apply Z.ltb_lt in L | apply Z.ltb_ge in L].
      * now apply descent_left.
      * apply descent_right; [lia | assumption].
Qed.

Lemma back_step (p : AVLNode) (rest : list AVLNode) :
  back (p :: rest) = match back rest with Some q => Some q | None => Some p end.
Proof.
  destruct rest as [|q rest]; [reflexivity|].
  change (back (p :: q :: rest)) with (back (q :: rest)).
  revert q. induction rest as [|q' rest IH]; intros q; [reflexivity|].
  change (back (q :: q' :: rest)) with (back (q' :: rest)).
  destruct (back (q' :: rest)) eqn:B; [reflexivity|].
  specialize (IH q'). rewrite B in IH.
  destruct (back rest); discriminate.
Qed.

Lemma searchPathFrom_nullptr (p : AVLNode) (k : Z) :
  searchPathFrom p k = [] <-> p = nullptr.
Proof.
  destruct p; cbn [searchPathFrom]; split; congruence.
Qed.

(** The last node of the path holds the key exactly when the descent
    succeeds. *)
Lemma back_searchPathFrom (p : AVLNode) (k : Z) :
  p <> nullptr ->
  exists q k',
    back (searchPathFrom p k) = Some q /\ key q = Some k'
    /\ (k' = k <-> searchBST p k = true).
Proof.
  induction p as [|k0 l IHl r IHr h]; intros Hp; [congruence|].
  cbn [searchPathFrom searchBST].
  destruct (k0 =? k) eqn:E; [apply Z.eqb_eq in E | apply Z.eqb_neq in E].
  - exists (node k0 l r h), k0. cbn. intuition.
  - rewrite back_step.
    assert (forall c,
               (c <> nullptr ->
                exists q k', back (searchPathFrom c k) = Some q /\ key q = Some k'
                             /\ (k' = k <-> searchBST c k = true)) ->
               exists q k',
                 match back (searchPathFrom c k) with
                 | Some q0 => Some q0
                 | None => Some (node k0 l r h)
                 end = Some q /\ key q = Some k'
                 /\ (k' = k <-> searchBST c k = true)) as Hchild.
    { intros c IH. destruct c as [|kc lc rc hc].
      - exists (node k0 l r h), k0. cbn. intuition congruence.
      - destruct IH as (q & k' & B & K & Hiff); [discriminate|].
        exists q, k'. rewrite B. auto. }
    destruct (k <? k0); [apply (Hchild l IHl) | apply (Hchild r IHr)].
Qed.

End Search.

(** ** The flat search *)

Section FlatSearch.

Import BinarySearch.

Lemma loop_probes (arr : list Z) (target : Z) :
  forall (fuel : nat) (low high : Z) (acc : list Z),
    0 <= low -> low <= high + 1 -> high < size arr ->
    2 * high < INT_MAX ->
    high - low + 1 < Z.of_nat fuel ->
    exists p a,
      loop fuel arr target low high acc = mkRun (acc ++ p) (Done (int_of_answer a))
      /\ probes arr target low high p a.
Proof.
  unfold INT_MAX.
  induction fuel as [|fuel IH]; intros low high acc H0 H1 H2 H3 H4; [lia|].
  cbn [loop].
  destruct (low <=? high) eqn:G; [apply Z.leb_le in G | apply Z.leb_gt in G].
  - rewrite upper_mid_exact by (unfold INT_MAX; lia).
    fold (midpoint low high).
    pose proof (upper_mid_between low high G) as Hmid. fold (midpoint low high) in Hmid.
    destruct (vec_at_Some arr (midpoint low high) ltac:(lia)) as (x & _ & Hv).
    rewrite Hv.
    destruct (x =? target) eqn:E; [apply Z.eqb_eq in E | apply Z.eqb_neq in E].
    + subst x. exists [midpoint low high], (Found (midpoint low high)).
      split; [reflexivity | now constructor].
    + destruct (x <? target) eqn:L; [apply Z.ltb_lt in L | apply Z.ltb_ge in L].
      * rewrite int_add_small by (unfold INT_MIN, INT_MAX; lia).
        destruct (IH (midpoint low high + 1) high (acc ++ [midpoint low high]))
          as (p & a & Ep & Hp); [lia | lia | lia | lia | lia |].
        exists (midpoint low high :: p), a. split.
        -- rewrite Ep, <- app_assoc. reflexivity.
        -- now apply (probes_right arr target low high x).
      * rewrite int_sub_small by (unfold INT_MIN, INT_MAX; lia).
        destruct (IH low (midpoint low high - 1) (acc ++ [midpoint low high]))
          as (p & a & Ep & Hp); [lia | lia | lia | lia | lia |].
        exists (midpoint low high :: p), a. split.
        -- rewrite Ep, <- app_assoc. reflexivity.
        -- apply (probes_left arr target low high x); [assumption | assumption | lia | assumption].
  - exists [], NotFound. split.
    + now rewrite app_nil_r.
    + now constructor.
Qed.

Lemma binarySearch_probes (arr : list Z) (target : Z) :
  size arr <= MAX_LENGTH ->
  exists p a,
    binarySearch arr target = mkRun p (Done (int_of_answer a))
    /\ probes arr target 0 (size arr - 1) p a.
Proof.
  unfold MAX_LENGTH. intros Hn. assert (0 <= size arr) by (unfold size; lia).
  unfold binarySearch.
  rewrite int_of_size_t_sub by (unfold INT_MAX; lia).
  destruct (loop_probes arr target (S (length arr)) 0 (size arr - 1) [])
    as (p & a & E & P); [lia | lia | lia | unfold INT_MAX; lia | unfold size; lia |].
  exists p, a. split; assumption.
Qed.

Lemma probes_inside (seq : list Z) (target lo hi : Z) (p : list Z) (a : answer) :
  probes seq target lo hi p a -> Forall (fun mid => 0 <= mid < size seq) p.
Proof.
  induction 1 as [| lo hi G Hv | lo hi x p a G Hv L _ IH | lo hi x p a G Hv L _ IH];
    repeat constructor; try assumption; eapply vec_at_inside; eassumption.
Qed.

Lemma probes_answer (seq : list Z) (target lo hi : Z) (p : list Z) (a : answer) :
  probes seq target lo hi p a ->
  match a with
  | Found i => vec_at seq i = Some target /\ exists p', p = p' ++ [i]
  | NotFound => True
  end.
Proof.
  induction 1 as [| lo hi G Hv | lo hi x p a G Hv L _ IH | lo hi x p a G Hv L _ IH].
  - exact I.
  - split; [assumption | now exists []].
  - destruct a as [i|]; [|exact I]. destruct IH as (Hi & p' & ->).
    split; [assumption | now exists (midpoint lo hi :: p')].
  - destruct a as [i|]; [|exact I]. destruct IH as (Hi & p' & ->).
    split; [assumption | now exists (midpoint lo hi :: p')].
Qed.

End FlatSearch.

(** ** The tree: invariant and build *)

Section TreeClaims.

Lemma tree_is_record (t : AVLTree) : t = mkTree (root t) (sortedElements t).
Proof. now destruct t. Qed.




Lemma demo_tree_reachable : reachable demo_tree.
Proof. exists demo_requests. reflexivity. Qed.

End TreeClaims.

(** C1. After every run of insert and remove requests from the empty tree,
    the in-order traversal of the tree is the sorted vector, the vector is a
    SortedKeySet, the tree is a search tree over its keys, and at every node
    the two subtrees differ in height by at most one (the stored heights
    being the true ones). *)
Theorem tree_invariant (rqs : list request) (t : AVLTree) :
  perform_all rqs empty = Done t ->
  inorder (root t) = sortedElements t
  /\ ascending (sortedElements t)
  /\ BST (root t)
  /\ balanced (root t)
  /\ heights_stored (root t).
Proof.
  intros H.
  assert (Hc : consistent t) by (apply consistent_reachable; now exists rqs).
  destruct (consistent_shape t Hc) as (Hi & Hb & Hbal & Hh & _).
  destruct Hc as (Ha & _). auto.
Qed.

Lemma tree_invariant_witness :
  perform_all demo_requests empty = Done demo_tree
  /\ inorder (root demo_tree) = demo_keys
  /\ balanced (root demo_tree).
Proof.
  split; [reflexivity|].
  pose proof (tree_invariant demo_requests demo_tree eq_refl) as (Hi & _ & _ & Hb & _).
  split; [exact Hi | exact Hb].
Defined.

(** Up to 2^30 keys the build does what the specification says of it: for
    any ascending list of [n <= 2^30] unique keys [buildBalancedTree(0, n-1)]
    returns a tree whose in-order traversal is the list, whose height is the
    ceiling of [log2 (n+1)], and in which every stored height is one more than
    the larger child height (absent child 0).  What happens with one key more
    is shown at the end of the file. *)
Lemma build_from_sorted (elems : list Z) :
  ascending elems -> size elems <= MAX_KEYS ->
  exists t,
    rebuild elems = Done t
    /\ inorder t = elems
    /\ height t = Z.log2_up (size elems + 1)
    /\ depth t = Z.log2_up (size elems + 1)
    /\ heights_stored t.
Proof.
  intros _ Hn.
  destruct (rebuild_correct elems Hn) as (t & R & Hi & Hs & Hd & _).
  exists t. rewrite (heights_stored_depth t Hs). auto.
Qed.

Example build_from_sorted_example :
  exists t, rebuild demo_keys = Done t /\ inorder t = demo_keys /\ height t = 4.
Proof.
  assert (Ha : ascending demo_keys) by (repeat constructor).
  assert (Hn : size demo_keys <= MAX_KEYS) by discriminate.
  destruct (build_from_sorted demo_keys Ha Hn) as (t & R & Hi & Hh & _).
  exists t. auto.
Qed.

(** ** The tree: search *)

(** C5. In a tree the driver can observe: a key of the tree is found by
    [search], and the last node of its search path holds it; a key not in
    the tree is not found, and when the tree is not empty the last node of
    its search path holds another key.  The path is the descent of the
    specification: every visited node in order, ending at the match or at
    the node whose required child is absent. *)
Theorem search_correct (t : AVLTree) (k : Z) :
  reachable t ->
  (In k (inorder (root t)) ->
   search t k = true
   /\ exists q, back (getSearchPath t k) = Some q /\ key q = Some k)
  /\ (~ In k (inorder (root t)) ->
      search t k = false
      /\ (root t <> nullptr ->
          exists q k', back (getSearchPath t k) = Some q /\ key q = Some k' /\ k' <> k))
  /\ descent k (root t) (getSearchPath t k).
Proof.
  intros Hr. apply consistent_reachable in Hr.
  destruct (consistent_shape t Hr) as (_ & Hb & _).
  unfold search, getSearchPath.
  pose proof (searchBST_In (root t) k Hb) as Hiff.
  split; [|split].
  - intros Hin. apply Hiff in Hin. split; [exact Hin|].
    destruct (back_searchPathFrom (root t) k) as (q & k' & B & K & Hk).
    + intros E. rewrite E in Hin. discriminate.
    + exists q. split; [exact B|]. apply Hk in Hin. now subst k'.
  - intros Hout.
    assert (Hs : searchBST (root t) k = false).
    { destruct (searchBST (root t) k); [|reflexivity]. exfalso. apply Hout, Hiff. reflexivity. }
    split; [exact Hs|]. intros Hnn.
    destruct (back_searchPathFrom (root t) k Hnn) as (q & k' & B & K & Hk).
    exists q, k'. repeat split; try assumption.
    intros E. apply Hk in E. congruence.
  - apply searchPathFrom_descent.
Qed.

Lemma search_correct_witness :
  reachable demo_tree /\ In 54 (inorder (root demo_tree)) /\ search demo_tree 54 = true.
Proof.
  assert (Hr : reachable demo_tree) by (exists demo_requests; reflexivity).
  assert (Hin : In 54 (inorder (root demo_tree))) by (cbn; tauto).
  split; [exact Hr | split; [exact Hin|]].
  exact (proj1 (proj1 (search_correct demo_tree 54 Hr) Hin)).
Defined.

(** C9. On an empty tree every search path is empty and every search
    answers false; the path has no last node to compare, and the test of the
    driver, which looks at the last key only when the path is not empty,
    answers not-found. *)
Theorem empty_tree_search (t : AVLTree) (k : Z) :
  root t = nullptr ->
  getSearchPath t k = []
  /\ search t k = false
  /\ back (getSearchPath t k) = None
  /\ main_found (getSearchPath t k) k = Done false.
Proof.
  intros E. unfold getSearchPath, search. rewrite E. repeat split.
Qed.

Lemma empty_tree_search_witness :
  root empty = nullptr
  /\ getSearchPath empty 110 = []
  /\ search empty 110 = false.
Proof.
  split; [reflexivity|].
  destruct (empty_tree_search empty 110 eq_refl) as (Hp & Hs & _).
  split; [exact Hp | exact Hs].
Defined.

(** ** The tree: insert and remove *)

Section Mutations.

Lemma insert_present_noop (t : AVLTree) (k : Z) :
  consistent t -> In k (sortedElements t) -> insert k t = Done t.
Proof.
  intros (Ha & _ & R) Hin.
  rewrite insert_eq, (insert_sorted_present _ _ Ha Hin), R. cbn [bind].
  now rewrite <- tree_is_record.
Qed.

Lemma remove_absent_noop (t : AVLTree) (k : Z) :
  consistent t -> ~ In k (sortedElements t) -> remove k t = Done t.
Proof.
  intros (Ha & _ & R) Hout.
  rewrite remove_eq, (erase_sorted_absent _ _ Hout), R. cbn [bind].
  now rewrite <- tree_is_record.
Qed.

Lemma insert_again (t t1 : AVLTree) (k : Z) :
  insert k t = Done t1 -> insert k t1 = Done t1.
Proof.
  rewrite insert_eq. intros H.
  destruct (rebuild (insert_sorted (sortedElements t) k)) as [r| |] eqn:R; try discriminate.
  injection H as <-. rewrite insert_eq. cbn [sortedElements].
  rewrite insert_sorted_twice, R. reflexivity.
Qed.

Lemma main_found_absent (p : AVLNode) (k : Z) :
  searchBST p k = false -> main_found (searchPathFrom p k) k = Done false.
Proof.
  intros Hs. destruct p as [|k0 l r h] eqn:Ep; [reflexivity|].
  rewrite <- Ep in *.
  destruct (back_searchPathFrom p k) as (q & k' & B & K & Hk); [subst; discriminate|].
  unfold main_found. rewrite B, K. f_equal.
  apply Z.eqb_neq. intros E. apply Hk in E. congruence.
Qed.

End Mutations.

(** C6. Inserting a key twice in a row leaves what inserting it once
    leaves: the same sorted vector and the same tree, node for node. *)
Theorem insert_idempotent (t : AVLTree) (k : Z) :
  perform_all [Insert k; Insert k] t = perform_all [Insert k] t.
Proof.
  cbn [perform_all perform].
  destruct (insert k t) as [t1| |] eqn:E; cbn [bind]; try reflexivity.
  rewrite (insert_again t t1 k E). reflexivity.
Qed.

(** C7, amended. In a tree the driver can observe, for a key that is not
    in the sorted vector: when insert of the key returns, remove of that key
    then gives back the vector and the tree exactly. *)
Theorem remove_after_insert (t t1 : AVLTree) (k : Z) :
  reachable t -> ~ In k (sortedElements t) ->
  insert k t = Done t1 ->
  remove k t1 = Done t.
Proof.
  intros Hr Hout H. apply consistent_reachable in Hr.
  destruct Hr as (Ha & _ & R).
  rewrite insert_eq in H.
  destruct (rebuild (insert_sorted (sortedElements t) k)) as [r| |]; try discriminate.
  injection H as <-. rewrite remove_eq. cbn [sortedElements].
  rewrite (erase_insert_sorted _ _ Hout), R. cbn [bind].
  now rewrite <- tree_is_record.
Qed.

Lemma remove_after_insert_witness :
  reachable demo_tree /\ ~ In 60 (sortedElements demo_tree)
  /\ insert 60 demo_tree = Done demo_tree_60
  /\ remove 60 demo_tree_60 = Done demo_tree.
Proof.
  assert (Hr : reachable demo_tree) by (exists demo_requests; reflexivity).
  assert (Hout : ~ In 60 (sortedElements demo_tree))
    by (cbn; intros H; repeat (destruct H as [H | H]; [discriminate|]); exact H).
  split; [exact Hr | split; [exact Hout | split; [reflexivity|]]].
  exact (remove_after_insert demo_tree demo_tree_60 60 Hr Hout eq_refl).
Defined.

(** C8. In a tree the driver can observe no request fails: inserting a key
    of the sorted vector returns the same vector and tree, removing a key
    that is not in the vector returns the same vector and tree, and searching
    for such a key answers false, the driver's test on its search path
    answering not-found. *)
Theorem silent_noops (t : AVLTree) (k : Z) :
  reachable t ->
  (In k (sortedElements t) -> insert k t = Done t)
  /\ (~ In k (sortedElements t) ->
      remove k t = Done t
      /\ search t k = false
      /\ main_found (getSearchPath t k) k = Done false).
Proof.
  intros Hr. apply consistent_reachable in Hr. split.
  - now apply insert_present_noop.
  - intros Hout. split; [now apply remove_absent_noop|].
    destruct (consistent_shape t Hr) as (Hi & Hb & _).
    assert (Hs : searchBST (root t) k = false).
    { destruct (searchBST (root t) k) eqn:S; [|reflexivity].
      exfalso. apply Hout. rewrite <- Hi. now apply (searchBST_In (root t) k Hb). }
    split; [exact Hs | now apply main_found_absent].
Qed.

Lemma silent_noops_witness :
  reachable demo_tree
  /\ In 41 (sortedElements demo_tree)
  /\ insert 41 demo_tree = Done demo_tree.
Proof.
  assert (Hr : reachable demo_tree) by (exists demo_requests; reflexivity).
  assert (Hin : In 41 (sortedElements demo_tree)) by (cbn; tauto).
  split; [exact Hr | split; [exact Hin|]].
  exact (proj1 (silent_noops demo_tree 41 Hr) Hin).
Defined.

(** ** The flat search at the edge of the [int] range *)

Section FlatSearchLimits.

Import BinarySearch.

Lemma vec_at_repeat (x : Z) (n : nat) (i : Z) :
  0 <= i < Z.of_nat n -> vec_at (repeat x n) i = Some x.
Proof.
  intros Hi. unfold vec_at.
  destruct (i <? 0) eqn:Hn; [apply Z.ltb_lt in Hn; lia|].
  apply nth_error_repeat. lia.
Qed.

Lemma loop_step (fuel : nat) (arr : list Z) (target low high : Z) (acc : list Z) :
  loop (S fuel) arr target low high acc =
  if low <=? high then
    match vec_at arr (upper_mid low high) with
    | None => mkRun (acc ++ [upper_mid low high]) Fault
    | Some x =>
        if x =? target then mkRun (acc ++ [upper_mid low high]) (Done (upper_mid low high))
        else if x <? target
             then loop fuel arr target (int_add (upper_mid low high) 1) high
                    (acc ++ [upper_mid low high])
             else loop fuel arr target low (int_sub (upper_mid low high) 1)
                    (acc ++ [upper_mid low high])
    end
  else mkRun acc (Done (-1)).
Proof. reflexivity. Qed.

(** [INT_MAX] zeros, searched for 1: the first probe is 2^30 - 1, the search
    moves right, and the second midpoint overflows. *)
Lemma binarySearch_repeat_trace (n : nat) :
  Z.of_nat n = INT_MAX ->
  binarySearch (repeat 0 n) 1 = mkRun [1073741823; -536870912] Fault.
Proof.
  intros Hn. unfold binarySearch.
  assert (Hs : size (repeat 0 n) = INT_MAX)
    by (unfold size; now rewrite repeat_length).
  rewrite Hs, int_of_size_t_sub by (unfold INT_MAX; lia).
  rewrite repeat_length.
  destruct n as [|m]; [discriminate|].
  change (INT_MAX - 1) with 2147483646.
  rewrite loop_step.
  change (0 <=? 2147483646) with true. cbv iota.
  change (upper_mid 0 2147483646) with 1073741823.
  rewrite vec_at_repeat by (rewrite Hn; unfold INT_MAX; lia).
  change (0 =? 1) with false. change (0 <? 1) with true. cbv iota.
  change (int_add 1073741823 1) with 1073741824.
  rewrite loop_step.
  change (1073741824 <=? 2147483646) with true. cbv iota.
  change (upper_mid 1073741824 2147483646) with (-536870912).
  rewrite vec_at_negative by lia.
  reflexivity.
Qed.

Lemma binarySearch_zeros_trace :
  binarySearch (zeros INT_MAX) 1 = mkRun [1073741823; -536870912] Fault.
Proof.
  apply binarySearch_repeat_trace. apply Z2Nat.id. discriminate.
Qed.

Lemma sorted_repeat (x : Z) (n : nat) : sorted (repeat x n).
Proof.
  unfold sorted. induction n as [|n IH]; cbn [repeat]; constructor; [exact IH|].
  apply Forall_forall. intros y Hy. apply repeat_spec in Hy. lia.
Qed.

Lemma path_extends (arr : list Z) (target : Z) :
  forall (fuel : nat) (low high : Z) (acc : list Z),
    exists rest, path (loop fuel arr target low high acc) = acc ++ rest.
Proof.
  induction fuel as [|fuel IH]; intros low high acc.
  - exists []. cbn. now rewrite app_nil_r.
  - rewrite loop_step.
    assert (Hnext : forall lo' hi',
               exists rest,
                 path (loop fuel arr target lo' hi' (acc ++ [upper_mid low high]))
                 = acc ++ rest).
    { intros lo' hi'.
      destruct (IH lo' hi' (acc ++ [upper_mid low high])) as (rest & E).
      exists (upper_mid low high :: rest). now rewrite E, <- app_assoc. }
    destruct (low <=? high).
    + destruct (vec_at arr (upper_mid low high)) as [x|].
      * destruct (x =? target); [now exists [upper_mid low high]|].
        destruct (x <? target); apply Hnext.
      * now exists [upper_mid low high].
    + exists []. cbn. now rewrite app_nil_r.
Qed.

End FlatSearchLimits.

Section SortedSearch.

Lemma sorted_nth (l : list Z) :
  sorted l ->
  forall (i j : nat) (a b : Z),
    (i <= j)%nat -> nth_error l i = Some a -> nth_error l j = Some b -> a <= b.
Proof.
  unfold sorted. induction 1 as [|x l Hs IH Hx]; intros i j a b Hij Ha Hb.
  - destruct i; discriminate.
  - destruct i as [|i], j as [|j]; cbn [nth_error] in *; try lia.
    + injection Ha as <-. injection Hb as <-. lia.
    + injection Ha as <-. apply nth_error_In in Hb.
      rewrite Forall_forall in Hx. now apply Hx.
    + apply (IH i j); [lia | assumption | assumption].
Qed.

Lemma sorted_vec_at (seq : list Z) (i j a b : Z) :
  sorted seq -> i <= j -> vec_at seq i = Some a -> vec_at seq j = Some b -> a <= b.
Proof.
  intros Hs Hij Ha Hb.
  pose proof (vec_at_inside _ _ _ Ha) as Hi. pose proof (vec_at_inside _ _ _ Hb) as Hj.
  unfold vec_at in Ha, Hb.
  destruct (i <? 0) eqn:Ni; [discriminate|]. destruct (j <? 0) eqn:Nj; [discriminate|].
  apply (sorted_nth seq Hs (Z.to_nat i) (Z.to_nat j)); [lia | assumption | assumption].
Qed.

(** On a sorted sequence an exhausted search has excluded its whole range. *)
Lemma probes_exhaustive (seq : list Z) (target lo hi : Z) (p : list Z) (a : answer) :
  sorted seq -> probes seq target lo hi p a -> a = NotFound ->
  forall i, lo <= i <= hi -> vec_at seq i <> Some target.
Proof.
  intros Hs. induction 1 as [lo hi G | lo hi G Hv | lo hi x p a G Hv L _ IH | lo hi x p a G Hv L _ IH];
    intros Ea i Hi Hc.
  - lia.
  - discriminate.
  - destruct (Z_le_gt_dec i (midpoint lo hi)) as [Hle | Hgt].
    + pose proof (sorted_vec_at seq i (midpoint lo hi) target x Hs Hle Hc Hv). lia.
    + apply (IH Ea i); [lia | assumption].
  - destruct (Z_le_gt_dec (midpoint lo hi) i) as [Hle | Hgt].
    + pose proof (sorted_vec_at seq (midpoint lo hi) i x target Hs Hle Hv Hc). lia.
    + apply (IH Ea i); [lia | assumption].
Qed.

Lemma In_vec_at (seq : list Z) (x : Z) :
  In x seq -> exists i, 0 <= i <= size seq - 1 /\ vec_at seq i = Some x.
Proof.
  intros Hin. apply In_nth_error in Hin. destruct Hin as (n & Hn).
  assert (n < length seq)%nat by (apply nth_error_Some; congruence).
  exists (Z.of_nat n). unfold size, vec_at. split; [lia|].
  destruct (Z.of_nat n <? 0) eqn:E; [apply Z.ltb_lt in E; lia|].
  now rewrite Nat2Z.id.
Qed.

End SortedSearch.

(** ** One rule, two programs *)

Section DecisionPoints.

Import BinarySearch.

(** A level of the build entered with a range inside [int]. *)
Lemma buildBalancedTree_level (fuel : nat) (elems : list Z) (lo hi : Z) (t : AVLNode) :
  0 <= lo -> lo <= hi -> lo + hi < INT_MAX ->
  buildBalancedTree (S fuel) elems lo hi = Done t ->
  exists k l r h,
    t = node k l r h
    /\ vec_at elems (midpoint lo hi) = Some k
    /\ buildBalancedTree fuel elems lo (midpoint lo hi - 1) = Done l
    /\ buildBalancedTree fuel elems (midpoint lo hi + 1) hi = Done r.
Proof.
  intros H0 H1 H2. unfold INT_MAX in H2.
  pose proof (upper_mid_between lo hi H1) as Hb. fold (midpoint lo hi) in Hb.
  cbn [buildBalancedTree].
  rewrite upper_mid_exact by (unfold INT_MAX; lia). fold (midpoint lo hi).
  replace (lo >? hi) with false by (symmetry; rewrite Z.gtb_ltb; now apply Z.ltb_ge).
  unfold at_index.
  destruct (vec_at elems (midpoint lo hi)) as [k|]; [|discriminate].
  cbn [bind].
  rewrite int_sub_small, int_add_small by (unfold INT_MIN, INT_MAX; lia).
  destruct (buildBalancedTree fuel elems lo (midpoint lo hi - 1)) as [l| |];
    [|discriminate|discriminate].
  cbn [bind].
  destruct (buildBalancedTree fuel elems (midpoint lo hi + 1) hi) as [r| |];
    [|discriminate|discriminate].
  cbn [bind]. intros E. injection E as <-.
  exists k, l, r, (int_add 1 (Z.max (height l) (height r))). auto.
Qed.

Lemma buildBalancedTree_empty_range (fuel : nat) (elems : list Z) (lo hi : Z) (t : AVLNode) :
  hi < lo -> buildBalancedTree fuel elems lo hi = Done t -> t = nullptr.
Proof.
  intros H. destruct fuel as [|fuel]; cbn [buildBalancedTree]; [discriminate|].
  replace (lo >? hi) with true by (symmetry; now apply Z.gtb_lt).
  congruence.
Qed.

(** The elements the flat search examines in a range are the keys the tree
    search visits in the tree built over that range. *)
Lemma probes_visit_tree (arr : list Z) (target lo hi : Z) (p : list Z) (a : answer) :
  probes arr target lo hi p a ->
  forall (fuel : nat) (t : AVLNode),
    0 <= lo -> 2 * hi < INT_MAX ->
    buildBalancedTree fuel arr lo hi = Done t ->
    map (vec_at arr) p = map key (searchPathFrom t target).
Proof.
  unfold INT_MAX.
  induction 1 as [lo hi G | lo hi G Hv | lo hi x p a G Hv L _ IH | lo hi x p a G Hv L _ IH];
    intros fuel t H0 H2 B.
  - now rewrite (buildBalancedTree_empty_range fuel arr lo hi t G B).
  - destruct fuel as [|fuel]; [discriminate|].
    destruct (buildBalancedTree_level fuel arr lo hi t H0 G ltac:(unfold INT_MAX; lia) B)
      as (k & l & r & h & -> & Hk & _ & _).
    rewrite Hv in Hk. injection Hk as <-.
    cbn [searchPathFrom map key]. rewrite Z.eqb_refl, Hv. reflexivity.
  - destruct fuel as [|fuel]; [discriminate|].
    destruct (buildBalancedTree_level fuel arr lo hi t H0 G ltac:(unfold INT_MAX; lia) B)
      as (k & l & r & h & -> & Hk & _ & Br).
    rewrite Hv in Hk. injection Hk as <-.
    pose proof (upper_mid_between lo hi G) as Hb. fold (midpoint lo hi) in Hb.
    cbn [searchPathFrom map key].
    replace (x =? target) with false by (symmetry; apply Z.eqb_neq; lia).
    replace (target <? x) with false by (symmetry; apply Z.ltb_ge; lia).
    rewrite Hv. f_equal. apply (IH fuel r); [lia | lia | exact Br].
  - destruct fuel as [|fuel]; [discriminate|].
    destruct (buildBalancedTree_level fuel arr lo hi t H0 G ltac:(unfold INT_MAX; lia) B)
      as (k & l & r & h & -> & Hk & Bl & _).
    rewrite Hv in Hk. injection Hk as <-.
    pose proof (upper_mid_between lo hi G) as Hb. fold (midpoint lo hi) in Hb.
    cbn [searchPathFrom map key].
    replace (x =? target) with false by (symmetry; apply Z.eqb_neq; lia).
    replace (target <? x) with true by (symmetry; apply Z.ltb_lt; lia).
    rewrite Hv. f_equal. apply (IH fuel l); [lia | lia | exact Bl].
Qed.

(** Over the same sequence of up to 2^30 elements the line the flat search
    prints is the list of keys on the search path of the rebuilt tree: the
    two programs take the same decision points. *)
Lemma same_decision_points (arr : list Z) (target : Z) :
  size arr <= MAX_LENGTH ->
  exists t,
    rebuild arr = Done t
    /\ printed arr (binarySearch arr target) = map key (searchPathFrom t target).
Proof.
  intros Hn.
  destruct (rebuild_correct arr Hn) as (t & R & _).
  destruct (binarySearch_probes arr target Hn) as (p & a & E & P).
  exists t. split; [exact R|].
  unfold printed. rewrite E. cbn [path].
  unfold rebuild in R. unfold MAX_LENGTH in Hn.
  assert (0 <= size arr) by (unfold size; lia).
  rewrite rebuild_end in R by (unfold INT_MAX; lia).
  apply (probes_visit_tree arr target 0 (size arr - 1) p a P (S (length arr)) t);
    [lia | unfold INT_MAX; lia | exact R].
Qed.

End DecisionPoints.

(** The examples of the specification. *)

Example flat_search_example :
  BinarySearch.binarySearch demo_array 110 = BinarySearch.mkRun [10; 15; 18; 19] (Done 19).
Proof. reflexivity. Qed.

Example round_trip_scenario :
  inorder (root demo_tree) = demo_keys
  /\ search demo_tree 110 = false
  /\ map key (getSearchPath demo_tree 110) = [Some 41; Some 52; Some 54]
  /\ (t <- insert 110 demo_tree ;; Done (search t 110)) = Done true.
Proof. repeat split. Qed.

(** ** The midpoint rule and the flat search *)

(** For every range [0 <= lo <= hi] whose ends add up to less than
    [INT_MAX] (every range inside a sequence of up to 2^30 elements) the
    code's midpoint is [(lo+hi+1)/2], inside the range; the ranges [0,3] and
    [0,4] both give 2; an iteration of the flat search entered with that
    range probes this midpoint, and a level of the tree build entered with
    that range takes its key there and recurs on the two sides of it. *)
Lemma midpoint_rule (lo hi : Z) :
  0 <= lo -> lo <= hi -> lo + hi < INT_MAX ->
  upper_mid lo hi = midpoint lo hi
  /\ lo <= midpoint lo hi <= hi
  /\ upper_mid 0 3 = 2 /\ upper_mid 0 4 = 2
  /\ (forall fuel arr target acc,
         exists rest,
           BinarySearch.path (BinarySearch.loop (S fuel) arr target lo hi acc)
           = acc ++ midpoint lo hi :: rest)
  /\ (forall fuel elems t,
         buildBalancedTree (S fuel) elems lo hi = Done t ->
         exists k l r h,
           t = node k l r h
           /\ vec_at elems (midpoint lo hi) = Some k
           /\ buildBalancedTree fuel elems lo (midpoint lo hi - 1) = Done l
           /\ buildBalancedTree fuel elems (midpoint lo hi + 1) hi = Done r).
Proof.
  intros H0 H1 H2. unfold INT_MAX in H2.
  assert (Hm : upper_mid lo hi = midpoint lo hi)
    by (apply upper_mid_exact; unfold INT_MAX; lia).
  pose proof (upper_mid_between lo hi H1) as Hb. fold (midpoint lo hi) in Hb.
  split; [exact Hm | split; [exact Hb | split; [reflexivity | split; [reflexivity|]]]].
  split.
  - intros fuel arr target acc. rewrite loop_step, Hm.
    replace (lo <=? hi) with true by (symmetry; now apply Z.leb_le).
    assert (Hnext : forall lo' hi',
               exists rest,
                 BinarySearch.path
                   (BinarySearch.loop fuel arr target lo' hi' (acc ++ [midpoint lo hi]))
                 = acc ++ midpoint lo hi :: rest).
    { intros lo' hi'.
      destruct (path_extends arr target fuel lo' hi' (acc ++ [midpoint lo hi])) as (rest & E).
      exists rest. now rewrite E, <- app_assoc. }
    destruct (vec_at arr (midpoint lo hi)) as [x|].
    + destruct (x =? target); [now exists []|].
      destruct (x <? target); apply Hnext.
    + now exists [].
  - intros fuel elems t.
    apply buildBalancedTree_level; [exact H0 | exact H1 | unfold INT_MAX; lia].
Qed.

Example midpoint_rule_example :
  upper_mid 10 19 = midpoint 10 19 /\ 10 <= midpoint 10 19 <= 19.
Proof.
  assert (H0 : 0 <= 10) by discriminate.
  assert (H1 : 10 <= 19) by discriminate.
  assert (H2 : 10 + 19 < INT_MAX) by reflexivity.
  split.
  - exact (proj1 (midpoint_rule 10 19 H0 H1 H2)).
  - exact (proj1 (proj2 (midpoint_rule 10 19 H0 H1 H2))).
Qed.

(** C3. The midpoint of a range should be (lo+hi+1)/2 at both sites.  For
    the range [lo = 2^30], [hi = 2^31 - 2], which both programs reach one
    step to the right of the first midpoint over [INT_MAX] elements, the sum
    leaves the [int] range: the code's midpoint is -536870912 where the rule
    gives 1610612735; the flat search records and reads that index, and the
    tree build stops at it. *)
Theorem midpoint_overflow :
  1073741824 <= 2147483646
  /\ midpoint 1073741824 2147483646 = 1610612735
  /\ upper_mid 1073741824 2147483646 = -536870912
  /\ BinarySearch.loop 1 (zeros INT_MAX) 1 1073741824 2147483646 [1073741823]
     = BinarySearch.mkRun [1073741823; -536870912] Fault
  /\ buildBalancedTree 1 (iota INT_MAX) 1073741824 2147483646 = Fault.
Proof.
  split; [discriminate | split; [reflexivity | split; [reflexivity | split]]].
  - rewrite loop_step.
    change (1073741824 <=? 2147483646) with true. cbv iota.
    change (upper_mid 1073741824 2147483646) with (-536870912).
    rewrite vec_at_negative by lia. reflexivity.
  - cbn [buildBalancedTree].
    change (1073741824 >? 2147483646) with false. cbv iota.
    change (upper_mid 1073741824 2147483646) with (-536870912).
    unfold at_index. rewrite vec_at_negative by lia. reflexivity.
Qed.

(** Up to 2^30 elements the flat search does what the specification says
    of it: for every ascending sequence of at most 2^30 elements and every
    target it returns, and it follows the loop of the specification from
    [lo = 0], [hi = length - 1]: its local [path] is the list of the probed
    midpoints in order; on success it returns an index holding the target,
    the last entry of the path; on exhaustion it returns -1 with the whole
    path recorded, and the target is then not in the sequence.  What happens
    on a longer sequence is shown at the end of the file. *)
Lemma binarySearch_follows_loop (arr : list Z) (target : Z) :
  sorted arr -> size arr <= MAX_LENGTH ->
  exists p a,
    BinarySearch.binarySearch arr target = BinarySearch.mkRun p (Done (int_of_answer a))
    /\ probes arr target 0 (size arr - 1) p a
    /\ match a with
       | Found i => vec_at arr i = Some target /\ exists p', p = p' ++ [i]
       | NotFound => ~ In target arr
       end.
Proof.
  intros Hs Hn.
  destruct (binarySearch_probes arr target Hn) as (p & a & E & P).
  exists p, a. split; [exact E | split; [exact P|]].
  pose proof (probes_answer arr target _ _ p a P) as Ha.
  destruct a as [i|]; [exact Ha|].
  intros Hin. apply In_vec_at in Hin. destruct Hin as (i & Hi & Hv).
  exact (probes_exhaustive arr target _ _ p NotFound Hs P eq_refl i Hi Hv).
Qed.

Example binarySearch_follows_loop_example :
  exists p a,
    BinarySearch.binarySearch demo_array 110
    = BinarySearch.mkRun p (Done (int_of_answer a))
    /\ probes demo_array 110 0 19 p a.
Proof.
  assert (Hs : sorted demo_array) by (repeat constructor; intro Hc; discriminate Hc).
  assert (Hn : size demo_array <= MAX_LENGTH) by discriminate.
  destruct (binarySearch_follows_loop demo_array 110 Hs Hn) as (p & a & E & P & _).
  exists p, a. split; [exact E | exact P].
Qed.

(** Up to 2^30 elements the flat search returns and every index it probes
    is inside the sequence; on the empty sequence it returns -1 at once with
    an empty path. *)
Lemma probes_in_bounds (arr : list Z) (target : Z) :
  size arr <= MAX_LENGTH ->
  (exists r, BinarySearch.result (BinarySearch.binarySearch arr target) = Done r)
  /\ Forall (fun mid => 0 <= mid < size arr)
       (BinarySearch.path (BinarySearch.binarySearch arr target))
  /\ BinarySearch.binarySearch [] target = BinarySearch.mkRun [] (Done (-1)).
Proof.
  intros Hn.
  destruct (binarySearch_probes arr target Hn) as (p & a & E & P).
  rewrite E. cbn [BinarySearch.result BinarySearch.path].
  split; [now eexists | split; [|reflexivity]].
  exact (probes_inside arr target _ _ p a P).
Qed.

Example probes_in_bounds_example :
  Forall (fun mid => 0 <= mid < 20)
    (BinarySearch.path (BinarySearch.binarySearch demo_array 110)).
Proof.
  assert (Hn : size demo_array <= MAX_LENGTH) by discriminate.
  exact (proj1 (proj2 (probes_in_bounds demo_array 110 Hn))).
Qed.

(** C10. Every probed index should lie inside the sequence.  On [INT_MAX]
    zeros searched for 1 the code probes 2^30 - 1, moves right, and computes
    the next midpoint past [INT_MAX]: the index it records and reads at is
    -536870912, outside the sequence. *)
Theorem binarySearch_probe_out_of_range :
  BinarySearch.path (BinarySearch.binarySearch (zeros INT_MAX) 1)
  = [1073741823; -536870912]
  /\ BinarySearch.result (BinarySearch.binarySearch (zeros INT_MAX) 1) = Fault
  /\ -536870912 < 0.
Proof.
  rewrite binarySearch_zeros_trace. repeat split.
Qed.

(** * Further properties of the code *)

Import Shape.

(** ** Lookups after a mutation *)

Section Lookups.

Lemma In_erase_sorted_iff (v : list Z) (k y : Z) :
  ascending v -> (In y (erase_sorted v k) <-> y <> k /\ In y v).
Proof.
  unfold ascending. induction v as [|x v IH]; intros Hs.
  - simpl. tauto.
  - rewrite erase_sorted_cons. inversion Hs as [|? ? Hv Hx]; subst.
    rewrite Forall_forall in Hx. specialize (IH Hv).
    destruct (x <? k) eqn:L; [apply Z.ltb_lt in L | apply Z.ltb_ge in L].
    + cbn [In]. rewrite IH. split.
      * intros [<- | (Hy & Hin)]; [split; [lia | now left] | split; [assumption | now right]].
      * intros (Hy & [<- | Hin]); [now left | right; now split].
    + destruct (x =? k) eqn:E; [apply Z.eqb_eq in E | apply Z.eqb_neq in E].
      * subst x. cbn [In]. split.
        -- intros Hin. specialize (Hx y Hin). split; [lia | now right].
        -- intros (Hy & [<- | Hin]); [congruence | assumption].
      * split.
        -- intros Hin. split; [|assumption].
           destruct Hin as [<- | Hin]; [lia|]. specialize (Hx y Hin). lia.
        -- tauto.
Qed.

Lemma search_iff_In (t : AVLTree) (y : Z) :
  consistent t -> (search t y = true <-> In y (sortedElements t)).
Proof.
  intros Hc. destruct (consistent_shape t Hc) as (Hi & Hb & _).
  unfold search. rewrite <- Hi. now apply searchBST_In.
Qed.

Lemma bool_eq_of_iff (a b : bool) : (a = true <-> b = true) -> a = b.
Proof. destruct a, b; intuition congruence. Qed.

End Lookups.

(** X1. In a tree the driver can observe, after [insert(k)] has returned a
    search finds [k], and finds any other key exactly when it was found
    before. *)
Theorem search_after_insert (t t' : AVLTree) (k y : Z) :
  reachable t -> insert k t = Done t' ->
  search t' y = (y =? k) || search t y.
Proof.
  intros Hr H. apply consistent_reachable in Hr.
  destruct (consistent_insert k t t' Hr H) as (Hc' & He).
  apply bool_eq_of_iff.
  rewrite (search_iff_In t' y Hc'), He, In_insert_sorted.
  rewrite orb_true_iff, Z.eqb_eq, (search_iff_In t y Hr). reflexivity.
Qed.

Lemma search_after_insert_witness :
  reachable demo_tree /\ insert 60 demo_tree = Done demo_tree_60
  /\ search demo_tree_60 60 = true.
Proof.
  assert (Hr : reachable demo_tree) by (exists demo_requests; reflexivity).
  split; [exact Hr | split; [reflexivity|]].
  exact (search_after_insert demo_tree demo_tree_60 60 60 Hr eq_refl).
Defined.

(** X2. In a tree the driver can observe, after [remove(k)] has returned a
    search no longer finds [k], and finds any other key exactly when it was
    found before. *)
Theorem search_after_remove (t t' : AVLTree) (k y : Z) :
  reachable t -> remove k t = Done t' ->
  search t' y = negb (y =? k) && search t y.
Proof.
  intros Hr H. apply consistent_reachable in Hr.
  destruct (consistent_remove k t t' Hr H) as (Hc' & He).
  apply bool_eq_of_iff.
  rewrite (search_iff_In t' y Hc'), He.
  rewrite (In_erase_sorted_iff _ k y (proj1 Hr)).
  rewrite andb_true_iff, negb_true_iff, Z.eqb_neq, (search_iff_In t y Hr). reflexivity.
Qed.

Lemma search_after_remove_witness :
  reachable demo_tree_60 /\ remove 60 demo_tree_60 = Done demo_tree
  /\ search demo_tree 60 = false /\ search demo_tree 54 = true.
Proof.
  assert (Hr : reachable demo_tree_60)
    by (exists (demo_requests ++ [Insert 60]); reflexivity).
  split; [exact Hr | split; [reflexivity|]].
  split.
  - exact (search_after_remove demo_tree_60 demo_tree 60 60 Hr eq_refl).
  - exact (search_after_remove demo_tree_60 demo_tree 60 54 Hr eq_refl).
Defined.

(** ** The tree is a function of the key set *)

Section KeySets.

Lemma ascending_unique (l1 : list Z) :
  forall l2 : list Z,
    ascending l1 -> ascending l2 -> (forall x, In x l1 <-> In x l2) -> l1 = l2.
Proof.
  unfold ascending.
  induction l1 as [|a l1 IH]; intros [|b l2] H1 H2 Hsame.
  - reflexivity.
  - exfalso. apply (proj2 (Hsame b)). now left.
  - exfalso. apply (proj1 (Hsame a)). now left.
  - inversion H1 as [|? ? S1 F1]; subst. inversion H2 as [|? ? S2 F2]; subst.
    rewrite Forall_forall in F1, F2.
    assert (a = b) as <-.
    { destruct (proj1 (Hsame a) (or_introl eq_refl)) as [E | Ha]; [now symmetry|].
      destruct (proj2 (Hsame b) (or_introl eq_refl)) as [E | Hb]; [assumption|].
      specialize (F1 b Hb). specialize (F2 a Ha). lia. }
    f_equal. apply IH; [assumption | assumption |].
    intros x. split; intros Hx.
    + destruct (proj1 (Hsame x) (or_intror Hx)) as [E | Hin]; [|assumption].
      subst x. specialize (F1 a Hx). lia.
    + destruct (proj2 (Hsame x) (or_intror Hx)) as [E | Hin]; [|assumption].
      subst x. specialize (F2 a Hx). lia.
Qed.

End KeySets.

(** X3. The tree does not remember how it was filled: two runs of requests
    from the empty tree that end with the same keys end with the same sorted
    vector and the same tree, node for node. *)
Theorem same_keys_same_tree (rqs1 rqs2 : list request) (t1 t2 : AVLTree) :
  perform_all rqs1 empty = Done t1 ->
  perform_all rqs2 empty = Done t2 ->
  (forall x, In x (sortedElements t1) <-> In x (sortedElements t2)) ->
  t1 = t2.
Proof.
  intros R1 R2 Hsame.
  assert (C1 : consistent t1) by (apply consistent_reachable; now exists rqs1).
  assert (C2 : consistent t2) by (apply consistent_reachable; now exists rqs2).
  destruct C1 as (A1 & _ & B1). destruct C2 as (A2 & _ & B2).
  pose proof (ascending_unique _ _ A1 A2 Hsame) as E.
  rewrite (tree_is_record t1), (tree_is_record t2).
  rewrite E in B1 |- *. rewrite B1 in B2. injection B2 as ->. reflexivity.
Qed.

Lemma same_keys_same_tree_witness :
  perform_all demo_requests empty = Done demo_tree
  /\ perform_all demo_requests_reversed empty = Done demo_tree_reversed
  /\ demo_tree = demo_tree_reversed.
Proof.
  assert (R1 : perform_all demo_requests empty = Done demo_tree)
    by (vm_compute; reflexivity).
  assert (R2 : perform_all demo_requests_reversed empty = Done demo_tree_reversed)
    by (vm_compute; reflexivity).
  split; [exact R1 | split; [exact R2|]].
  apply (same_keys_same_tree demo_requests demo_requests_reversed); [exact R1 | exact R2|].
  intros x. vm_compute. tauto.
Defined.

(** ** The two ways to answer a search *)

(** X4. For every tree and key, the test the driver makes on the search
    path (a last node, and its key equal to the key sought) answers what
    [search] answers. *)
Theorem found_test_agrees (t : AVLTree) (k : Z) :
  main_found (getSearchPath t k) k = Done (search t k).
Proof.
  unfold getSearchPath, search.
  destruct (root t) as [|k0 l r h] eqn:E; [reflexivity|].
  rewrite <- E.
  destruct (back_searchPathFrom (root t) k) as (q & k' & B & K & Hk);
    [rewrite E; discriminate|].
  unfold main_found. rewrite B, K. f_equal.
  apply bool_eq_of_iff. rewrite Z.eqb_eq. exact Hk.
Qed.

(** ** How long a search is *)

Section PathLength.

Lemma searchPathFrom_length (p : AVLNode) (k : Z) :
  Z.of_nat (length (searchPathFrom p k)) <= depth p.
Proof.
  induction p as [|k0 l IHl r IHr h]; cbn [searchPathFrom depth length]; [lia|].
  destruct (k0 =? k); [cbn [length]; pose proof (Z.le_max_l (depth l) (depth r));
                        assert (0 <= depth l) by (clear; induction l; cbn [depth]; lia); lia|].
  destruct (k <? k0); cbn [length]; lia.
Qed.

End PathLength.

(** X5. In a tree the driver can observe, a search visits at most
    ceil(log2(n+1)) nodes, [n] being the number of keys. *)
Theorem search_path_logarithmic (t : AVLTree) (k : Z) :
  reachable t ->
  Z.of_nat (length (getSearchPath t k)) <= Z.log2_up (size (sortedElements t) + 1).
Proof.
  intros Hr. apply consistent_reachable in Hr.
  destruct (consistent_shape t Hr) as (_ & _ & _ & _ & Hd).
  rewrite <- Hd. apply searchPathFrom_length.
Qed.

Lemma search_path_logarithmic_witness :
  reachable demo_tree /\ Z.of_nat (length (getSearchPath demo_tree 110)) <= 4.
Proof.
  assert (Hr : reachable demo_tree) by (exists demo_requests; reflexivity).
  split; [exact Hr|].
  exact (search_path_logarithmic demo_tree 110 Hr).
Defined.

(** ** The shape the upper midpoint gives *)

Section Weights.

Lemma buildBalancedTree_weights (elems : list Z) :
  forall (fuel : nat) (start end_ : Z) (t : AVLNode),
    0 <= start -> start <= end_ + 1 -> 2 * end_ < INT_MAX ->
    buildBalancedTree fuel elems start end_ = Done t ->
    count t = end_ - start + 1 /\ left_biased t.
Proof.
  unfold INT_MAX.
  induction fuel as [|fuel IH]; intros start end_ t H0 H1 H2 B; [discriminate|].
  destruct (Z_lt_ge_dec end_ start) as [Hlt | Hge].
  - rewrite (buildBalancedTree_empty_range _ _ _ _ t Hlt B). cbn. split; [lia | exact I].
  - destruct (buildBalancedTree_level fuel elems start end_ t H0 ltac:(lia)
                ltac:(unfold INT_MAX; lia) B) as (k & l & r & h & -> & _ & Bl & Br).
    pose proof (upper_mid_between start end_ ltac:(lia)) as Hb.
    pose proof (midpoint_halves start end_) as Hh.
    fold (midpoint start end_) in Hb, Hh.
    destruct (IH start (midpoint start end_ - 1) l H0 ltac:(lia) ltac:(lia) Bl)
      as (Cl & Ll).
    destruct (IH (midpoint start end_ + 1) end_ r ltac:(lia) ltac:(lia) ltac:(lia) Br)
      as (Cr & Lr).
    cbn [count left_biased]. rewrite Cl, Cr.
    repeat split; try assumption; lia.
Qed.

End Weights.

(** X6. In a tree the driver can observe, at every node the left subtree
    holds as many keys as the right one or exactly one more, the tree has one
    node per key, and a non-empty tree has the key at position [n/2] of the
    sorted vector (the upper middle) at its root. *)
Theorem tree_is_left_biased (t : AVLTree) :
  reachable t ->
  left_biased (root t)
  /\ count (root t) = size (sortedElements t)
  /\ (sortedElements t <> [] ->
      key (root t) = vec_at (sortedElements t) (size (sortedElements t) / 2)
      /\ key (root t) <> None).
Proof.
  intros Hr. apply consistent_reachable in Hr.
  destruct Hr as (_ & Hn & R). unfold MAX_KEYS in Hn.
  assert (H0 : 0 <= size (sortedElements t)) by (unfold size; lia).
  unfold rebuild in R. rewrite rebuild_end in R by (unfold INT_MAX; lia).
  destruct (buildBalancedTree_weights (sortedElements t) (S (length (sortedElements t)))
              0 (size (sortedElements t) - 1) (root t) ltac:(lia) ltac:(lia)
              ltac:(unfold INT_MAX; lia) R) as (Hc & Hl).
  split; [exact Hl | split; [lia|]].
  intros Hne.
  assert (Hpos : 1 <= size (sortedElements t)).
  { unfold size. destruct (sortedElements t); [congruence | cbn [length]; lia]. }
  destruct (buildBalancedTree_level (length (sortedElements t)) (sortedElements t)
              0 (size (sortedElements t) - 1) (root t)
              ltac:(lia) ltac:(lia) ltac:(unfold INT_MAX; lia) R)
    as (k & l & r & h & E & Hk & _).
  rewrite E. cbn [key]. unfold midpoint in Hk.
  replace (0 + (size (sortedElements t) - 1) + 1) with (size (sortedElements t)) in Hk by ring.
  rewrite Hk. split; [reflexivity | discriminate].
Qed.

Lemma tree_is_left_biased_witness :
  reachable demo_tree /\ left_biased (root demo_tree) /\ count (root demo_tree) = 10.
Proof.
  assert (Hr : reachable demo_tree) by (exists demo_requests; reflexivity).
  split; [exact Hr|].
  pose proof (tree_is_left_biased demo_tree Hr) as (Hl & Hc & _).
  split; [exact Hl | exact Hc].
Defined.

(** ** When a request returns *)

(** X7. In a tree the driver can observe, [remove] always returns (it never
    reads out of range), and [insert] returns whenever fewer than 2^30 keys
    are stored; neither adds or drops more than one key. *)
Theorem requests_return (t : AVLTree) (k : Z) :
  reachable t ->
  (exists t', remove k t = Done t'
              /\ size (sortedElements t) - 1 <= size (sortedElements t')
                 <= size (sortedElements t))
  /\ (size (sortedElements t) < MAX_KEYS ->
      exists t', insert k t = Done t'
                 /\ size (sortedElements t) <= size (sortedElements t')
                    <= size (sortedElements t) + 1).
Proof.
  intros Hr. apply consistent_reachable in Hr. split.
  - destruct (remove_returns k t Hr) as (t' & H). exists t'. split; [exact H|].
    destruct (consistent_remove k t t' Hr H) as (_ & ->).
    pose proof (size_erase_sorted (sortedElements t) k).
    assert (size (sortedElements t) - 1 <= size (erase_sorted (sortedElements t) k)).
    { clear. unfold size. induction (sortedElements t) as [|x v IH].
      - cbn. lia.
      - rewrite erase_sorted_cons.
        destruct (x <? k); [cbn [length] in *; lia|].
        destruct (x =? k); cbn [length]; lia. }
    lia.
  - intros Hlt. destruct (insert_returns k t Hr Hlt) as (t' & H).
    exists t'. split; [exact H|].
    destruct (consistent_insert k t t' Hr H) as (_ & ->).
    apply size_insert_sorted.
Qed.

Lemma requests_return_witness :
  reachable demo_tree /\ exists t', remove 41 demo_tree = Done t'.
Proof.
  assert (Hr : reachable demo_tree) by (exists demo_requests; reflexivity).
  split; [exact Hr|].
  destruct (proj1 (requests_return demo_tree 41 Hr)) as (t' & H & _).
  exists t'. exact H.
Defined.

(** ** The flat search over the tree's own vector *)

(** X8. In a tree the driver can observe, running the flat search of
    [BinarySearch.cpp] over the tree's sorted vector examines, in order, the
    keys of the nodes that [getSearchPath] visits for the same target, and it
    returns an index exactly when [search] answers true. *)
Theorem flat_search_matches_tree (t : AVLTree) (k : Z) :
  reachable t ->
  BinarySearch.printed (sortedElements t) (BinarySearch.binarySearch (sortedElements t) k)
  = map key (getSearchPath t k)
  /\ exists r,
       BinarySearch.result (BinarySearch.binarySearch (sortedElements t) k) = Done r
       /\ (r <> -1 <-> search t k = true).
Proof.
  intros Hr. apply consistent_reachable in Hr.
  pose proof (search_iff_In t k Hr) as Hs.
  destruct Hr as (Ha & Hn & R).
  assert (H0 : 0 <= size (sortedElements t)) by (unfold size; lia).
  destruct (binarySearch_probes (sortedElements t) k Hn) as (p & a & E & P).
  unfold MAX_KEYS in Hn.
  unfold rebuild in R. rewrite rebuild_end in R by (unfold INT_MAX; lia).
  rewrite E. unfold BinarySearch.printed. cbn [BinarySearch.path BinarySearch.result].
  split.
  - apply (probes_visit_tree (sortedElements t) k 0 (size (sortedElements t) - 1) p a P
             (S (length (sortedElements t))) (root t)
             ltac:(lia) ltac:(unfold INT_MAX; lia) R).
  - exists (int_of_answer a). split; [reflexivity|].
    assert (Hsorted : sorted (sortedElements t)).
    { unfold sorted. unfold ascending in Ha. clear - Ha.
      induction Ha as [|x v Hv IH Hx]; constructor; [assumption|].
      rewrite Forall_forall in *. intros y Hy. specialize (Hx y Hy). lia. }
    pose proof (probes_answer _ _ _ _ _ _ P) as Hans.
    pose proof (probes_inside _ _ _ _ _ _ P) as Hin.
    destruct a as [i|]; cbn [int_of_answer].
    + destruct Hans as (Hv & p' & ->).
      apply Forall_app in Hin. destruct Hin as (_ & Hi).
      inversion Hi as [|? ? Hi0 _]; subst.
      split; [intros _ | intros _; lia].
      apply Hs. unfold vec_at in Hv.
      destruct (i <? 0); [discriminate|]. eapply nth_error_In; eassumption.
    + split; [intros H; exfalso; now apply H|].
      intros Hfound. exfalso. apply Hs in Hfound.
      apply In_vec_at in Hfound. destruct Hfound as (i & Hi & Hv).
      exact (probes_exhaustive _ _ _ _ _ _ Hsorted P eq_refl i Hi Hv).
Qed.

Lemma flat_search_matches_tree_witness :
  reachable demo_tree
  /\ BinarySearch.printed demo_keys (BinarySearch.binarySearch demo_keys 110)
     = map key (getSearchPath demo_tree 110).
Proof.
  assert (Hr : reachable demo_tree) by (exists demo_requests; reflexivity).
  split; [exact Hr|].
  exact (proj1 (flat_search_matches_tree demo_tree 110 Hr)).
Defined.

(** ** What the flat search answers, and how fast *)

Section FlatAnswers.

Lemma probes_length (seq : list Z) (target lo hi : Z) (p : list Z) (a : answer) :
  probes seq target lo hi p a -> lo <= hi + 1 ->
  Z.of_nat (length p) <= Z.log2_up (hi - lo + 2).
Proof.
  induction 1 as [lo hi G | lo hi G Hv | lo hi x p a G Hv L _ IH | lo hi x p a G Hv L _ IH];
    intros Hr.
  - cbn [length]. apply Z.log2_up_nonneg.
  - change (Z.of_nat (length [midpoint lo hi])) with (Z.log2_up 2).
    apply Z.log2_up_le_mono. lia.
  - pose proof (upper_mid_between lo hi G) as Hb.
    pose proof (midpoint_halves lo hi) as Hh. fold (midpoint lo hi) in Hb, Hh.
    specialize (IH ltac:(lia)).
    replace (hi - (midpoint lo hi + 1) + 2) with ((hi - midpoint lo hi) + 1) in IH by ring.
    destruct (log2_up_neighbours (midpoint lo hi - lo) (hi - midpoint lo hi)) as (Hmax & _);
      [lia | lia |].
    pose proof (log2_up_halves (hi - lo + 1) (midpoint lo hi - lo) ltac:(lia) ltac:(lia)) as Hlog.
    replace (hi - lo + 2) with (hi - lo + 1 + 1) by ring.
    cbn [length]. lia.
  - pose proof (upper_mid_between lo hi G) as Hb.
    pose proof (midpoint_halves lo hi) as Hh. fold (midpoint lo hi) in Hb, Hh.
    specialize (IH ltac:(lia)).
    replace (midpoint lo hi - 1 - lo + 2) with ((midpoint lo hi - lo) + 1) in IH by ring.
    pose proof (log2_up_halves (hi - lo + 1) (midpoint lo hi - lo) ltac:(lia) ltac:(lia)) as Hlog.
    replace (hi - lo + 2) with (hi - lo + 1 + 1) by ring.
    cbn [length]. lia.
Qed.

End FlatAnswers.

(** X9. On an ascending sequence of at most 2^30 elements the flat search
    returns -1 exactly when the target is not in the sequence, and otherwise
    an index at which the sequence holds the target. *)
Theorem binarySearch_decides (arr : list Z) (target : Z) :
  sorted arr -> size arr <= MAX_LENGTH ->
  exists r,
    BinarySearch.result (BinarySearch.binarySearch arr target) = Done r
    /\ (r = -1 <-> ~ In target arr)
    /\ (r <> -1 -> vec_at arr r = Some target).
Proof.
  intros Hs Hn.
  destruct (binarySearch_probes arr target Hn) as (p & a & E & P).
  rewrite E. cbn [BinarySearch.result]. exists (int_of_answer a).
  split; [reflexivity|].
  pose proof (probes_answer _ _ _ _ _ _ P) as Hans.
  pose proof (probes_inside _ _ _ _ _ _ P) as Hin.
  destruct a as [i|]; cbn [int_of_answer].
  - destruct Hans as (Hv & p' & ->).
    apply Forall_app in Hin. destruct Hin as (_ & Hi).
    inversion Hi as [|? ? Hi0 _]; subst.
    split; [|intros _; exact Hv].
    split; [lia|]. intros Hout. exfalso. apply Hout.
    unfold vec_at in Hv. destruct (i <? 0); [discriminate|].
    eapply nth_error_In; eassumption.
  - split; [|intros H; now exfalso].
    split; [intros _ | reflexivity].
    intros Hfound. apply In_vec_at in Hfound. destruct Hfound as (i & Hi & Hv).
    exact (probes_exhaustive _ _ _ _ _ _ Hs P eq_refl i Hi Hv).
Qed.

Lemma binarySearch_decides_witness :
  sorted demo_array /\ size demo_array <= MAX_LENGTH
  /\ exists r,
       BinarySearch.result (BinarySearch.binarySearch demo_array 111) = Done r
       /\ (r = -1 <-> ~ In 111 demo_array).
Proof.
  assert (Hs : sorted demo_array) by (repeat constructor; intro Hc; discriminate Hc).
  assert (Hn : size demo_array <= MAX_LENGTH) by discriminate.
  split; [exact Hs | split; [exact Hn|]].
  destruct (binarySearch_decides demo_array 111 Hs Hn) as (r & E & Hiff & _).
  exists r. split; [exact E | exact Hiff].
Defined.

(** X10. On a sequence of [n <= 2^30] elements, sorted or not, the flat
    search makes at most ceil(log2(n+1)) probes. *)
Theorem binarySearch_logarithmic (arr : list Z) (target : Z) :
  size arr <= MAX_LENGTH ->
  Z.of_nat (length (BinarySearch.path (BinarySearch.binarySearch arr target)))
  <= Z.log2_up (size arr + 1).
Proof.
  intros Hn.
  destruct (binarySearch_probes arr target Hn) as (p & a & E & P).
  rewrite E. cbn [BinarySearch.path].
  replace (size arr + 1) with (size arr - 1 - 0 + 2) by ring.
  apply (probes_length _ _ _ _ _ _ P). unfold size. lia.
Qed.

Lemma binarySearch_logarithmic_witness :
  size demo_array <= MAX_LENGTH
  /\ Z.of_nat (length (BinarySearch.path (BinarySearch.binarySearch demo_array 110))) <= 5.
Proof.
  assert (Hn : size demo_array <= MAX_LENGTH) by discriminate.
  split; [exact Hn|].
  exact (binarySearch_logarithmic demo_array 110 Hn).
Defined.

(** ** Node pointers and nodes *)

Import Drawing.

Section Pointers.

Lemma ptr_eqb_eq (p q : AVLNode) : ptr_eqb p q = true <-> p = q.
Proof.
  revert q. induction p as [|k l IHl r IHr h]; intros [|k' l' r' h']; cbn [ptr_eqb].
  - tauto.
  - split; discriminate.
  - split; discriminate.
  - rewrite !andb_true_iff, !Z.eqb_eq, IHl, IHr. split.
    + intros (((-> & ->) & ->) & ->). reflexivity.
    + intros E. injection E as -> -> -> ->. auto.
Qed.

Lemma isNodeInPath_In (nd : AVLNode) (path : list AVLNode) :
  isNodeInPath nd path = true <-> In nd path.
Proof.
  induction path as [|p rest IH]; cbn [isNodeInPath In].
  - split; [discriminate | tauto].
  - destruct (ptr_eqb p nd) eqn:E.
    + apply ptr_eqb_eq in E. tauto.
    + rewrite IH. split; [tauto|]. intros [H | H]; [|assumption].
      apply ptr_eqb_eq in H. congruence.
Qed.

Lemma count_nonneg (p : AVLNode) : 0 <= count p.
Proof. induction p; cbn [count]; lia. Qed.

(** A node reached by at least one turn is smaller than where it was
    reached from. *)
Lemma subtree_count (p : AVLNode) :
  forall (turns : list bool) (n : AVLNode),
    subtree_at p turns = Some n -> turns <> [] -> n <> nullptr -> count n < count p.
Proof.
  induction p as [|k l IHl r IHr h]; intros [|d turns] n H Hne Hn; try congruence.
  - discriminate.
  - cbn [subtree_at] in H. pose proof (count_nonneg l). pose proof (count_nonneg r).
    cbn [count].
    destruct d, turns as [|d' turns'].
    + cbn [subtree_at] in H. assert (n = l) as -> by congruence. lia.
    + specialize (IHl (d' :: turns') n H ltac:(discriminate) Hn). lia.
    + cbn [subtree_at] in H. assert (n = r) as -> by congruence. lia.
    + specialize (IHr (d' :: turns') n H ltac:(discriminate) Hn). lia.
Qed.

Lemma subtree_keys (p : AVLNode) :
  forall (turns : list bool) (k : Z) (l r : AVLNode) (h : Z),
    subtree_at p turns = Some (node k l r h) -> In k (inorder p).
Proof.
  induction p as [|k0 l0 IHl r0 IHr h0]; intros [|d turns] k l r h H.
  - discriminate.
  - discriminate.
  - cbn in H. injection H as -> -> -> ->. cbn [inorder]. apply in_or_app. right. now left.
  - cbn [subtree_at] in H. cbn [inorder]. apply in_or_app.
    destruct d; [left; eapply IHl; eassumption | right; right; eapply IHr; eassumption].
Qed.

(** In a tree whose keys are all different, two different lists of turns
    never reach the same node: comparing node pointers and comparing nodes
    agree. *)
Lemma subtree_positions_differ (p : AVLNode) :
  ascending (inorder p) ->
  forall (turns1 turns2 : list bool) (n : AVLNode),
    subtree_at p turns1 = Some n -> subtree_at p turns2 = Some n ->
    n <> nullptr -> turns1 = turns2.
Proof.
  induction p as [|k0 l0 IHl r0 IHr h0]; intros Ha turns1 turns2 n H1 H2 Hn.
  - destruct turns1; [|discriminate]. cbn in H1. congruence.
  - cbn [inorder] in Ha. apply ascending_app in Ha.
    destruct Ha as (Al & Ar & Fl & Fr). rewrite Forall_forall in Fl, Fr.
    destruct turns1 as [|d1 t1], turns2 as [|d2 t2].
    + reflexivity.
    + exfalso. cbn in H1. injection H1 as <-.
      pose proof (subtree_count _ _ _ H2 ltac:(discriminate) Hn). lia.
    + exfalso. cbn in H2. injection H2 as <-.
      pose proof (subtree_count _ _ _ H1 ltac:(discriminate) Hn). lia.
    + cbn [subtree_at] in H1, H2.
      destruct n as [|k l r h]; [congruence|].
      destruct d1, d2.
      * f_equal. eapply IHl; eassumption.
      * exfalso. apply subtree_keys in H1. apply subtree_keys in H2.
        specialize (Fl k H1). specialize (Fr k H2). lia.
      * exfalso. apply subtree_keys in H1. apply subtree_keys in H2.
        specialize (Fl k H2). specialize (Fr k H1). lia.
      * f_equal. eapply IHr; eassumption.
Qed.

End Pointers.

(** ** What [drawTree] draws *)

Section Pictures.

Variable float : Type.
Variables fadd fsub : float -> float -> float.
Variable fhalf : float -> float.
Variables radius verticalSpacing : float.

Local Notation "'draw'" := (drawTree float fadd fsub fhalf radius verticalSpacing).
Local Notation "'fills'" := (fill_colors float).
Local Notation "'texts'" := (labels float).
Local Notation "'edges'" := (edge_colors float).

Lemma fills_draw (path : list AVLNode) (p : AVLNode) :
  forall x y ho, fills (draw p x y ho path) = map (shade path) (postorder p).
Proof.
  induction p as [|k l IHl r IHr h]; intros x y ho; [reflexivity|].
  cbn [drawTree postorder]. unfold fill_colors in *. rewrite !flat_map_app, !map_app.
  f_equal; [|f_equal].
  - destruct l as [|kl ll rl hl]; [reflexivity|]. cbn [flat_map app]. apply IHl.
  - destruct r as [|kr lr rr hr]; [reflexivity|]. cbn [flat_map app]. apply IHr.
Qed.

Lemma texts_draw (path : list AVLNode) (p : AVLNode) :
  forall x y ho, texts (draw p x y ho path) = map key_at (postorder p).
Proof.
  induction p as [|k l IHl r IHr h]; intros x y ho; [reflexivity|].
  cbn [drawTree postorder]. unfold labels in *. rewrite !flat_map_app, !map_app.
  f_equal; [|f_equal].
  - destruct l as [|kl ll rl hl]; [reflexivity|]. cbn [flat_map app]. apply IHl.
  - destruct r as [|kr lr rr hr]; [reflexivity|]. cbn [flat_map app]. apply IHr.
Qed.

Lemma postorder_keys_map (p : AVLNode) : map key_at (postorder p) = postorder_keys p.
Proof.
  induction p as [|k l IHl r IHr h]; [reflexivity|].
  cbn [postorder postorder_keys]. now rewrite !map_app, IHl, IHr.
Qed.

Lemma postorder_keys_inorder (p : AVLNode) : Permutation (postorder_keys p) (inorder p).
Proof.
  induction p as [|k l IHl r IHr h]; [constructor|].
  cbn [postorder_keys inorder].
  apply Permutation_app; [exact IHl|].
  rewrite <- Permutation_cons_append. now constructor.
Qed.

Lemma postorder_length (p : AVLNode) : Z.of_nat (length (postorder p)) = count p.
Proof.
  induction p as [|k l IHl r IHr h]; [reflexivity|].
  cbn [postorder count]. rewrite !length_app. cbn [length]. lia.
Qed.

Lemma count_positive (k : Z) (l r : AVLNode) (h : Z) : 1 <= count (node k l r h).
Proof.
  cbn [count]. pose proof (count_nonneg l). pose proof (count_nonneg r). lia.
Qed.

Lemma edges_draw_length (path : list AVLNode) (p : AVLNode) :
  forall x y ho,
    Z.of_nat (length (edges (draw p x y ho path))) = Z.max 0 (count p - 1).
Proof.
  induction p as [|k l IHl r IHr h]; intros x y ho; [reflexivity|].
  cbn [drawTree]. unfold edge_colors in *. rewrite !flat_map_app, !length_app.
  pose proof (count_positive k l r h) as Hp. cbn [count] in Hp |- *.
  rewrite !Nat2Z.inj_add. cbn [flat_map app length].
  destruct l as [|kl ll rl hl], r as [|kr lr rr hr]; cbn [flat_map app length].
  - reflexivity.
  - pose proof (count_positive kr lr rr hr). rewrite Nat2Z.inj_succ, IHr. cbn [count] in *. lia.
  - pose proof (count_positive kl ll rl hl). rewrite Nat2Z.inj_succ, IHl. cbn [count] in *. lia.
  - pose proof (count_positive kl ll rl hl). pose proof (count_positive kr lr rr hr).
    rewrite !Nat2Z.inj_succ, IHl, IHr. cbn [count] in *. lia.
Qed.

End Pictures.

(** ** The search path in the picture *)

Section PathNodes.

Lemma postorder_node (p n : AVLNode) :
  In n (postorder p) -> exists k l r h, n = node k l r h /\ In k (inorder p).
Proof.
  induction p as [|k0 l0 IHl r0 IHr h0]; cbn [postorder inorder]; [intros []|].
  rewrite !in_app_iff. cbn [In]. intros [H | [H | [H | []]]].
  - destruct (IHl H) as (k & l & r & h & E & Hk). exists k, l, r, h.
    split; [exact E | apply in_or_app; now left].
  - destruct (IHr H) as (k & l & r & h & E & Hk). exists k, l, r, h.
    split; [exact E | apply in_or_app; right; now right].
  - subst n. exists k0, l0, r0, h0.
    split; [reflexivity | apply in_or_app; right; now left].
Qed.

Lemma postorder_self (k : Z) (l r : AVLNode) (h : Z) :
  In (node k l r h) (postorder (node k l r h)).
Proof. cbn [postorder]. rewrite !in_app_iff. right. right. now left. Qed.

Lemma searchPathFrom_postorder (p : AVLNode) (k : Z) (q : AVLNode) :
  In q (searchPathFrom p k) -> In q (postorder p).
Proof.
  induction p as [|k0 l IHl r IHr h]; cbn [searchPathFrom]; [intros []|].
  intros [<- | H]; [apply postorder_self|].
  cbn [postorder]. rewrite !in_app_iff.
  destruct (k0 =? k); [destruct H|].
  destruct (k <? k0); auto.
Qed.

Lemma filter_none {A : Type} (f : A -> bool) (l : list A) :
  (forall x, In x l -> f x = false) -> filter f l = [].
Proof.
  induction l as [|a l IH]; intros H; [reflexivity|].
  cbn [filter]. rewrite (H a (or_introl eq_refl)). apply IH.
  intros x Hx. apply H. now right.
Qed.

Lemma not_in_path (nd : AVLNode) (path : list AVLNode) :
  ~ In nd path -> isNodeInPath nd path = false.
Proof.
  intros H. destruct (isNodeInPath nd path) eqn:E; [|reflexivity].
  apply isNodeInPath_In in E. contradiction.
Qed.

(** Below a node of a search tree the nodes on one side are not the node,
    and are none of the nodes on the other side. *)
Lemma sides_apart (k0 : Z) (l r : AVLNode) (h : Z) :
  BST (node k0 l r h) ->
  (forall n, In n (postorder l) -> n <> node k0 l r h /\ ~ In n (postorder r))
  /\ (forall n, In n (postorder r) -> n <> node k0 l r h /\ ~ In n (postorder l)).
Proof.
  cbn [BST]. intros (Fl & Fr & _ & _). rewrite Forall_forall in Fl, Fr.
  split; intros n Hn; destruct (postorder_node _ _ Hn) as (kn & ln & rn & hn & -> & Hk).
  - specialize (Fl kn Hk). split.
    + intros E. injection E as -> _ _ _. lia.
    + intros Hr. destruct (postorder_node _ _ Hr) as (k' & l' & r' & h' & E & Hk').
      injection E as <- _ _ _. specialize (Fr kn Hk'). lia.
  - specialize (Fr kn Hk). split.
    + intros E. injection E as -> _ _ _. lia.
    + intros Hl. destruct (postorder_node _ _ Hl) as (k' & l' & r' & h' & E & Hk').
      injection E as <- _ _ _. specialize (Fl kn Hk'). lia.
Qed.

(** Of the nodes of a search tree, drawn in order, the ones on the search
    path are the path itself, deepest node first. *)
Lemma path_nodes_drawn (k : Z) (p : AVLNode) :
  BST p ->
  forall pre : list AVLNode,
    (forall q n, In q pre -> In n (postorder p) -> q <> n) ->
    filter (fun n => isNodeInPath n (pre ++ searchPathFrom p k)) (postorder p)
    = rev (searchPathFrom p k).
Proof.
  induction p as [|k0 l IHl r IHr h]; intros Hb pre Hpre; [reflexivity|].
  destruct (sides_apart k0 l r h Hb) as (Sl & Sr).
  pose proof Hb as Hb'. cbn [BST] in Hb'. destruct Hb' as (_ & _ & Bl & Br).
  cbn [postorder searchPathFrom].
  set (P := node k0 l r h) in *.
  assert (Hself : forall rest, isNodeInPath P (pre ++ P :: rest) = true).
  { intros rest. apply isNodeInPath_In, in_or_app. right. now left. }
  assert (Hoff : forall c rest,
             (forall n, In n (postorder c) -> In n (postorder P) /\ n <> P /\ ~ In n rest) ->
             filter (fun n => isNodeInPath n (pre ++ P :: rest)) (postorder c) = []).
  { intros c rest Hc. apply filter_none. intros n Hn. apply not_in_path.
    destruct (Hc n Hn) as (HnP & Hne & Hnr).
    intros Hin. apply in_app_or in Hin. destruct Hin as [Hin | [E | Hin]].
    - exact (Hpre n n Hin HnP eq_refl).
    - now apply Hne.
    - now apply Hnr. }
  assert (Hon : forall c,
             BST c -> (forall n, In n (postorder c) -> In n (postorder P) /\ n <> P) ->
             (forall pre', (forall q n, In q pre' -> In n (postorder c) -> q <> n) ->
                filter (fun n => isNodeInPath n (pre' ++ searchPathFrom c k)) (postorder c)
                = rev (searchPathFrom c k)) ->
             filter (fun n => isNodeInPath n (pre ++ P :: searchPathFrom c k)) (postorder c)
             = rev (searchPathFrom c k)).
  { intros c Bc Hc IH.
    replace (pre ++ P :: searchPathFrom c k) with ((pre ++ [P]) ++ searchPathFrom c k)
      by (now rewrite <- app_assoc).
    apply IH. intros q n Hq Hn. destruct (Hc n Hn) as (HnP & Hne).
    apply in_app_or in Hq. destruct Hq as [Hq | [<- | []]].
    - now apply Hpre.
    - congruence. }
  assert (HlP : forall n, In n (postorder l) -> In n (postorder P))
    by (intros n Hn; unfold P; cbn [postorder]; rewrite !in_app_iff; auto).
  assert (HrP : forall n, In n (postorder r) -> In n (postorder P))
    by (intros n Hn; unfold P; cbn [postorder]; rewrite !in_app_iff; auto).
  rewrite !filter_app. cbn [filter].
  destruct (k0 =? k) eqn:E.
  - rewrite Hself, (Hoff l []), (Hoff r []); [reflexivity | |].
    + intros n Hn. destruct (Sr n Hn). auto.
    + intros n Hn. destruct (Sl n Hn). auto.
  - destruct (k <? k0) eqn:L.
    + rewrite Hself, (Hon l Bl), (Hoff r (searchPathFrom l k)).
      * cbn [rev]. now rewrite app_nil_l.
      * intros n Hn. destruct (Sr n Hn) as (Hne & Hnl). repeat split; auto.
        intros Hin. apply Hnl. now apply (searchPathFrom_postorder l k).
      * intros n Hn. destruct (Sl n Hn). auto.
      * intros pre' Hpre'. now apply IHl.
    + rewrite Hself, (Hon r Br), (Hoff l (searchPathFrom r k)).
      * cbn [rev app]. reflexivity.
      * intros n Hn. destruct (Sl n Hn) as (Hne & Hnr). repeat split; auto.
        intros Hin. apply Hnr. now apply (searchPathFrom_postorder r k).
      * intros n Hn. destruct (Sr n Hn). auto.
      * intros pre' Hpre'. now apply IHr.
Qed.

End PathNodes.

Section PathEdges.

Variable float : Type.
Variables fadd fsub : float -> float -> float.
Variable fhalf : float -> float.
Variables radius verticalSpacing : float.

Local Notation "'draw'" := (drawTree float fadd fsub fhalf radius verticalSpacing).
Local Notation "'reds'" := (red_edges float).

Lemma reds_app (a b : list (drawn float)) : reds (a ++ b) = reds a ++ reds b.
Proof. unfold red_edges, edge_colors. now rewrite flat_map_app, filter_app. Qed.

Lemma reds_line (x1 y1 x2 y2 : float) (b : bool) (ds : list (drawn float)) :
  reds (Line float x1 y1 (if b then Red else Yellow) x2 y2 (if b then Red else Yellow) :: ds)
  = if b then (Red, Red) :: reds ds else reds ds.
Proof. destruct b; reflexivity. Qed.

(** The edge to a child followed by the drawing of the child, when no node
    of the child is on the path: nothing red. *)
Lemma reds_child_off (path : list AVLNode) (c : AVLNode) (hl : bool)
  (x1 y1 x2 y2 x3 y3 ho : float) :
  (forall n, In n (postorder c) -> isNodeInPath n path = false) ->
  (forall x y ho', reds (draw c x y ho' path) = []) ->
  reds match c with
       | nullptr => []
       | node _ _ _ _ =>
           Line float x1 y1 (if hl && isNodeInPath c path then Red else Yellow)
                x2 y2 (if hl && isNodeInPath c path then Red else Yellow)
             :: draw c x3 y3 ho path
       end = [].
Proof.
  intros Hc IH. destruct c as [|kc lc rc hc]; [reflexivity|].
  rewrite (Hc _ (postorder_self kc lc rc hc)), andb_false_r.
  exact (IH x3 y3 ho).
Qed.

Lemma no_red_edges (path : list AVLNode) (p : AVLNode) :
  (forall n, In n (postorder p) -> isNodeInPath n path = false) ->
  forall x y ho, reds (draw p x y ho path) = [].
Proof.
  induction p as [|k l IHl r IHr h]; intros Hp x y ho; [reflexivity|].
  assert (Hl : forall n, In n (postorder l) -> isNodeInPath n path = false)
    by (intros n Hn; apply Hp; cbn [postorder]; rewrite !in_app_iff; auto).
  assert (Hr : forall n, In n (postorder r) -> isNodeInPath n path = false)
    by (intros n Hn; apply Hp; cbn [postorder]; rewrite !in_app_iff; auto).
  cbn [drawTree]. rewrite !reds_app.
  rewrite (reds_child_off path l), (reds_child_off path r); auto.
Qed.

(** The edge to the child the path goes on with, followed by the drawing of
    that child. *)
Lemma reds_child_on (path : list AVLNode) (c : AVLNode) (k : Z)
  (x1 y1 x2 y2 x3 y3 ho : float) :
  (forall q, In q (searchPathFrom c k) -> In q path) ->
  (forall x y ho',
      length (reds (draw c x y ho' path)) = pred (length (searchPathFrom c k))) ->
  length (reds match c with
               | nullptr => []
               | node _ _ _ _ =>
                   Line float x1 y1 (if true && isNodeInPath c path then Red else Yellow)
                        x2 y2 (if true && isNodeInPath c path then Red else Yellow)
                     :: draw c x3 y3 ho path
               end) = length (searchPathFrom c k).
Proof.
  intros Hc IH. destruct c as [|kc lc rc hc]; [reflexivity|].
  assert (Hin : isNodeInPath (node kc lc rc hc) path = true).
  { apply isNodeInPath_In, Hc. cbn [searchPathFrom]. now left. }
  rewrite Hin.
  change (S (length (reds (draw (node kc lc rc hc) x3 y3 ho path)))
          = length (searchPathFrom (node kc lc rc hc) k)).
  rewrite IH. cbn [searchPathFrom length]. reflexivity.
Qed.

(** The red edges of the drawing of a search tree with its search path are
    the steps of the path. *)
Lemma path_edges_drawn (k : Z) (p : AVLNode) :
  BST p ->
  forall pre : list AVLNode,
    (forall q n, In q pre -> In n (postorder p) -> q <> n) ->
    forall x y ho,
      length (reds (draw p x y ho (pre ++ searchPathFrom p k)))
      = pred (length (searchPathFrom p k)).
Proof.
  induction p as [|k0 l IHl r IHr h]; intros Hb pre Hpre x y ho; [reflexivity|].
  destruct (sides_apart k0 l r h Hb) as (Sl & Sr).
  pose proof Hb as Hb'. cbn [BST] in Hb'. destruct Hb' as (_ & _ & Bl & Br).
  cbn [drawTree searchPathFrom].
  set (P := node k0 l r h) in *.
  set (rest := if k0 =? k then [] else if k <? k0 then searchPathFrom l k
                                       else searchPathFrom r k).
  assert (Hself : isNodeInPath P (pre ++ P :: rest) = true).
  { apply isNodeInPath_In, in_or_app. right. now left. }
  rewrite Hself.
  assert (HlP : forall n, In n (postorder l) -> In n (postorder P))
    by (intros n Hn; unfold P; cbn [postorder]; rewrite !in_app_iff; auto).
  assert (HrP : forall n, In n (postorder r) -> In n (postorder P))
    by (intros n Hn; unfold P; cbn [postorder]; rewrite !in_app_iff; auto).
  assert (Hoff : forall c,
             (forall n, In n (postorder c) -> In n (postorder P) /\ n <> P /\ ~ In n rest) ->
             forall n, In n (postorder c) -> isNodeInPath n (pre ++ P :: rest) = false).
  { intros c Hc n Hn. apply not_in_path.
    destruct (Hc n Hn) as (HnP & Hne & Hnr).
    intros Hin. apply in_app_or in Hin. destruct Hin as [Hin | [E | Hin]].
    - exact (Hpre n n Hin HnP eq_refl).
    - now apply Hne.
    - now apply Hnr. }
  assert (Hon : forall c,
             rest = searchPathFrom c k ->
             BST c -> (forall n, In n (postorder c) -> In n (postorder P) /\ n <> P) ->
             (forall pre', (forall q n, In q pre' -> In n (postorder c) -> q <> n) ->
                forall x' y' ho',
                  length (reds (draw c x' y' ho' (pre' ++ searchPathFrom c k)))
                  = pred (length (searchPathFrom c k))) ->
             forall x' y' ho',
               length (reds (draw c x' y' ho' (pre ++ P :: rest)))
               = pred (length (searchPathFrom c k))).
  { intros c -> Bc Hc IH x' y' ho'.
    replace (pre ++ P :: searchPathFrom c k) with ((pre ++ [P]) ++ searchPathFrom c k)
      by (now rewrite <- app_assoc).
    apply IH. intros q n Hq Hn. destruct (Hc n Hn) as (HnP & Hne).
    apply in_app_or in Hq. destruct Hq as [Hq | [<- | []]].
    - now apply Hpre.
    - congruence. }
  rewrite !reds_app, !length_app.
  change (reds [Circle float x y Red; Text float x y k0]) with (@nil (color * color)).
  cbn [length]. rewrite Nat.add_0_r.
  unfold rest in *. clear rest.
  destruct (k0 =? k) eqn:E.
  - replace (true && isNodeInPath l (pre ++ [P])) with (true && isNodeInPath l (pre ++ P :: []))
      by reflexivity.
    rewrite (reds_child_off (pre ++ [P]) l true), (reds_child_off (pre ++ [P]) r true).
    + reflexivity.
    + apply Hoff. intros n Hn. destruct (Sr n Hn). auto.
    + intros. apply no_red_edges. apply Hoff. intros n Hn. destruct (Sr n Hn). auto.
    + apply Hoff. intros n Hn. destruct (Sl n Hn). auto.
    + intros. apply no_red_edges. apply Hoff. intros n Hn. destruct (Sl n Hn). auto.
  - destruct (k <? k0) eqn:L.
    + rewrite (reds_child_on _ l k), (reds_child_off _ r true).
      * cbn [length]. now rewrite Nat.add_0_r.
      * apply Hoff. intros n Hn. destruct (Sr n Hn) as (Hne & Hnl). repeat split; auto.
        intros Hin. apply Hnl. now apply (searchPathFrom_postorder l k).
      * intros. apply no_red_edges. apply Hoff.
        intros n Hn. destruct (Sr n Hn) as (Hne & Hnl). repeat split; auto.
        intros Hin. apply Hnl. now apply (searchPathFrom_postorder l k).
      * intros q Hq. apply in_or_app. right. now right.
      * apply (Hon l eq_refl Bl).
        -- intros n Hn. destruct (Sl n Hn). auto.
        -- intros pre' Hpre'. now apply IHl.
    + rewrite (reds_child_off _ l true), (reds_child_on _ r k).
      * cbn [length app]. reflexivity.
      * intros q Hq. apply in_or_app. right. now right.
      * apply (Hon r eq_refl Br).
        -- intros n Hn. destruct (Sr n Hn). auto.
        -- intros pre' Hpre'. now apply IHr.
      * apply Hoff. intros n Hn. destruct (Sl n Hn) as (Hne & Hnr). repeat split; auto.
        intros Hin. apply Hnr. now apply (searchPathFrom_postorder r k).
      * intros. apply no_red_edges. apply Hoff.
        intros n Hn. destruct (Sl n Hn) as (Hne & Hnr). repeat split; auto.
        intros Hin. apply Hnr. now apply (searchPathFrom_postorder r k).
Qed.

End PathEdges.

Section Highlights.

Variable float : Type.
Variables fadd fsub : float -> float -> float.
Variable fhalf : float -> float.
Variables radius verticalSpacing : float.

Local Notation "'draw'" := (drawTree float fadd fsub fhalf radius verticalSpacing).

Lemma combine_map {A B C : Type} (f : A -> B) (g : A -> C) (l : list A) :
  combine (map f l) (map g l) = map (fun a => (f a, g a)) l.
Proof. induction l as [|a l IH]; [reflexivity|]. cbn [map combine]. now rewrite IH. Qed.

Lemma red_labels_draw (path : list AVLNode) (p : AVLNode) (x y ho : float) :
  red_labels float (draw p x y ho path)
  = map key_at (filter (fun n => isNodeInPath n path) (postorder p)).
Proof.
  unfold red_labels. rewrite fills_draw, texts_draw, combine_map.
  induction (postorder p) as [|n l IH]; [reflexivity|].
  cbn [map filter fst]. unfold shade at 1.
  destruct (isNodeInPath n path); cbn [is_red map snd]; now rewrite IH.
Qed.

Lemma key_of_path_node (p : AVLNode) (k : Z) (l : list AVLNode) :
  (forall q, In q l -> In q (searchPathFrom p k)) ->
  map Some (map key_at l) = map key l.
Proof.
  induction l as [|q l IH]; intros Hl; [reflexivity|].
  cbn [map]. rewrite IH by (intros q' Hq'; apply Hl; now right).
  f_equal.
  destruct (postorder_node p q (searchPathFrom_postorder p k q (Hl q (or_introl eq_refl))))
    as (kq & lq & rq & hq & -> & _).
  reflexivity.
Qed.

(** X11. For every tree and every path, whatever the path highlights,
    [drawTree] issues one circle and one text per node, the children before
    their parent, so that every key of the tree is written exactly once, and
    one edge per node other than the root. *)
Theorem drawTree_draws_every_node (p : AVLNode) (x y ho : float) (path : list AVLNode) :
  labels float (draw p x y ho path) = postorder_keys p
  /\ Permutation (labels float (draw p x y ho path)) (inorder p)
  /\ Z.of_nat (length (fill_colors float (draw p x y ho path))) = count p
  /\ Z.of_nat (length (edge_colors float (draw p x y ho path))) = Z.max 0 (count p - 1).
Proof.
  rewrite texts_draw, postorder_keys_map, fills_draw, length_map, postorder_length.
  repeat split.
  - apply postorder_keys_inorder.
  - apply edges_draw_length.
Qed.

(** X12. In a tree the driver can observe, drawn with the search path of a
    key, the red circles are exactly the nodes of the path (they are drawn
    deepest first), and the red edges are as many as the steps of the path. *)
Theorem drawing_highlights_path (t : AVLTree) (k : Z) (x y ho : float) :
  reachable t ->
  map Some (red_labels float (draw (root t) x y ho (getSearchPath t k)))
  = rev (map key (getSearchPath t k))
  /\ length (red_edges float (draw (root t) x y ho (getSearchPath t k)))
     = pred (length (getSearchPath t k)).
Proof.
  intros Hr. apply consistent_reachable in Hr.
  destruct (consistent_shape t Hr) as (_ & Hb & _).
  unfold getSearchPath. split.
  - rewrite red_labels_draw.
    pose proof (path_nodes_drawn k (root t) Hb [] ltac:(intros q n [])) as Hp.
    cbn [app] in Hp. rewrite Hp.
    rewrite (key_of_path_node (root t) k) by (intros q Hq; now apply in_rev).
    apply map_rev.
  - apply (path_edges_drawn float fadd fsub fhalf radius verticalSpacing k (root t) Hb []).
    intros q n [].
Qed.

End Highlights.

Lemma drawing_highlights_path_witness :
  reachable demo_tree
  /\ map Some (red_labels Z (drawTree Z Z.add Z.sub (fun z => z / 2) 30 100
                               (root demo_tree) 800 50 300 (getSearchPath demo_tree 110)))
     = [Some 54; Some 52; Some 41].
Proof.
  assert (Hr : reachable demo_tree) by (exists demo_requests; reflexivity).
  split; [exact Hr|].
  exact (proj1 (drawing_highlights_path Z Z.add Z.sub (fun z => z / 2) 30 100
                  demo_tree 110 800 50 300 Hr)).
Defined.

(** ** The main loop *)

Import Driver.

Section Loop.

Lemma perform_all_app (rqs1 rqs2 : list request) (t : AVLTree) :
  perform_all (rqs1 ++ rqs2) t = (t' <- perform_all rqs1 t ;; perform_all rqs2 t').
Proof.
  revert t. induction rqs1 as [|rq rqs1 IH]; intros t; [reflexivity|].
  cbn [app perform_all]. destruct (perform rq t) as [t1| |]; cbn [bind]; [apply IH | reflexivity..].
Qed.

Lemma reachable_insert (t t' : AVLTree) (k : Z) :
  reachable t -> insert k t = Done t' -> reachable t'.
Proof.
  intros (rqs & R) H. exists (rqs ++ [Insert k]).
  rewrite perform_all_app, R. cbn [bind perform_all perform]. now rewrite H.
Qed.

Lemma main_found_search (t : AVLTree) (k : Z) :
  main_found (getSearchPath t k) k = Done (search t k).
Proof.
  unfold getSearchPath, search.
  destruct (root t) as [|k0 l r h] eqn:E; [reflexivity|].
  rewrite <- E.
  destruct (back_searchPathFrom (root t) k) as (q & k' & B & K & Hk);
    [rewrite E; discriminate|].
  unfold main_found. rewrite B, K. f_equal.
  apply bool_eq_of_iff. rewrite Z.eqb_eq. exact Hk.
Qed.

Lemma forallb_removelast {A : Type} (f : A -> bool) (l : list A) :
  forallb f l = true -> forallb f (removelast l) = true.
Proof.
  induction l as [|a l IH]; [trivial|].
  cbn [forallb removelast]. intros H. apply andb_true_iff in H. destruct H as (Ha & Hl).
  destruct l as [|b l]; [reflexivity|].
  cbn [forallb] in *. rewrite Ha. exact (IH Hl).
Qed.

Lemma forallb_snoc {A : Type} (f : A -> bool) (l : list A) (a : A) :
  forallb f l = true -> f a = true -> forallb f (l ++ [a]) = true.
Proof.
  intros Hl Ha. rewrite forallb_app, Hl. cbn [forallb]. now rewrite Ha.
Qed.

(** Once the initial tree is complete an event keeps the state steady. *)
Lemma handleEvent_steady (ev : event) (s s' : state) (ts : list task) :
  steady s -> initialTreeComplete s = true ->
  handleEvent ev s = Done (s', ts) ->
  steady s' /\ initialTreeComplete s' = true.
Proof.
  intros (Hr & Hf & Hi & Hs & Hx & Hc & Hinit) Hdone H.
  assert (Hidx : insertionIndex s = numElements) by now apply Hc.
  assert (Hkeep : forall a' ui us ti tsr,
             reachable a' -> ti && tsr = false ->
             forallb accepted ui = true -> forallb accepted us = true ->
             steady (mkState a' (insertionIndex s) (initialTreeComplete s) ui us ti tsr)
             /\ initialTreeComplete
                  (mkState a' (insertionIndex s) (initialTreeComplete s) ui us ti tsr) = true).
  { intros a' ui us ti tsr Ha Hfl Hui Hus. split; [|exact Hdone].
    unfold steady.
    cbn [avl insertionIndex initialTreeComplete userInputInsert userInputSearch
           isTypingInsert isTypingSearch].
    split; [exact Ha|]. split; [exact Hfl|]. split; [exact Hui|]. split; [exact Hus|].
    split; [exact Hx|]. split; [exact Hc|].
    intros C. rewrite Hdone in C. discriminate C. }
  assert (Hsame : steady s /\ initialTreeComplete s = true)
    by (split; [unfold steady; tauto | exact Hdone]).
  destruct ev as [|inI inS|u|]; cbn [handleEvent] in H.
  - injection H as <- <-. exact Hsame.
  - destruct inI; [|destruct inS]; injection H as <- <-; apply Hkeep; auto.
  - destruct (u mod 256 =? 13).
    + destruct (isTypingInsert s && negb (isEmpty (userInputInsert s))).
      * destruct (atoi (userInputInsert s)) as [v| |]; try discriminate. cbn [bind] in H.
        destruct (insert v (avl s)) as [a'| |] eqn:I; try discriminate. cbn [bind] in H.
        injection H as <- <-. apply Hkeep; auto. now apply (reachable_insert (avl s) a' v).
      * destruct (isTypingSearch s && negb (isEmpty (userInputSearch s))).
        -- destruct (atoi (userInputSearch s)) as [v| |]; try discriminate. cbn [bind] in H.
           rewrite main_found_search in H. cbn [bind] in H.
           injection H as <- <-. apply Hkeep; auto.
        -- injection H as <- <-. exact Hsame.
    + destruct (u mod 256 =? 8).
      * destruct (isTypingInsert s && negb (isEmpty (userInputInsert s))).
        -- injection H as <- <-. apply Hkeep; auto. now apply forallb_removelast.
        -- destruct (isTypingSearch s && negb (isEmpty (userInputSearch s)));
             injection H as <- <-; [|exact Hsame].
           apply Hkeep; auto. now apply forallb_removelast.
      * destruct (accepted (u mod 256)) eqn:A; [|injection H as <- <-; exact Hsame].
        destruct (isTypingInsert s).
        -- injection H as <- <-. apply Hkeep; auto. now apply forallb_snoc.
        -- destruct (isTypingSearch s); injection H as <- <-; [|exact Hsame].
           apply Hkeep; auto. now apply forallb_snoc.
  - injection H as <- <-. exact Hsame.
Qed.

Lemma pollEvents_steady (evs : list event) :
  forall (s s' : state) (ts : list task),
    steady s -> pollEvents evs s = Done (s', ts) ->
    steady s' /\ initialTreeComplete s' = initialTreeComplete s.
Proof.
  induction evs as [|ev evs IH]; intros s s' ts Hs H; cbn [pollEvents] in H.
  - injection H as <- <-. auto.
  - destruct (initialTreeComplete s) eqn:C.
    + destruct (handleEvent ev s) as [[s1 t1]| |] eqn:E; try discriminate. cbn [bind fst snd] in H.
      destruct (pollEvents evs s1) as [[s2 t2]| |] eqn:P; try discriminate.
      cbn [bind fst] in H. injection H as <- <-.
      destruct (handleEvent_steady ev s s1 t1 Hs C E) as (Hs1 & C1).
      destruct (IH s1 s2 t2 Hs1 P) as (Hs2 & C2). split; [exact Hs2 | congruence].
    + cbn [bind fst snd] in H.
      destruct (pollEvents evs s) as [[s2 t2]| |] eqn:P; try discriminate.
      cbn [bind fst] in H. injection H as <- <-.
      destruct (IH s s2 t2 Hs P) as (Hs2 & C2). split; [exact Hs2 | congruence].
Qed.

End Loop.

Section InitialTree.

Lemma firstn_succ_nth {A : Type} (l : list A) :
  forall (i : nat) (x : A), nth_error l i = Some x -> firstn (S i) l = firstn i l ++ [x].
Proof.
  induction l as [|a l IH]; intros [|i] x H; try discriminate.
  - cbn in H. injection H as ->. reflexivity.
  - cbn [nth_error] in H. cbn [firstn app]. f_equal. now apply IH.
Qed.

Lemma prefix_smaller (l : list Z) :
  ascending l ->
  forall (i : nat) (x : Z), nth_error l i = Some x -> Forall (fun y => y < x) (firstn i l).
Proof.
  unfold ascending. induction 1 as [|a l Hs IH Ha]; intros [|i] x H; try discriminate.
  - constructor.
  - cbn [nth_error] in H. cbn [firstn]. constructor.
    + rewrite Forall_forall in Ha. apply Ha. eapply nth_error_In; eassumption.
    + now apply IH.
Qed.

Lemma insert_sorted_last (l : list Z) (x : Z) :
  Forall (fun y => y < x) l -> insert_sorted l x = l ++ [x].
Proof.
  induction 1 as [|a l Ha Hl IH]; [reflexivity|].
  rewrite insert_sorted_cons.
  replace (a <? x) with true by (symmetry; now apply Z.ltb_lt).
  cbn [app]. now rewrite IH.
Qed.

Lemma ascending_elements : ascending elements.
Proof. repeat constructor. Qed.

Lemma autoInsert_steady (elapsed : bool) (s s' : state) (ts : list task) :
  steady s -> autoInsert elapsed s = Done (s', ts) -> steady s'.
Proof.
  intros Hs H. unfold autoInsert in H.
  destruct (negb (initialTreeComplete s) && (insertionIndex s <? numElements)) eqn:G;
    [|injection H as <- <-; exact Hs].
  destruct elapsed; [|injection H as <- <-; exact Hs].
  apply andb_true_iff in G. destruct G as (Gc & Gi).
  apply negb_true_iff in Gc. apply Z.ltb_lt in Gi.
  destruct Hs as (Hr & Hf & Hi & Hsb & Hx & Hc & Hinit).
  destruct (Hinit Gc) as (Ei & Es & Ti & Ts & Hv).
  change numElements with 20 in *.
  unfold at_index in H.
  destruct (vec_at_Some elements (insertionIndex s)) as (x & Hn & Hvx);
    [unfold size; cbn [length elements]; lia|].
  rewrite Hvx in H. cbn [bind] in H.
  destruct (insert x (avl s)) as [a'| |] eqn:I; try discriminate. cbn [bind] in H.
  rewrite int_add_small in H by (unfold INT_MIN, INT_MAX; lia).
  injection H as <- <-.
  pose proof (reachable_insert _ _ _ Hr I) as Hr'.
  destruct (consistent_insert x (avl s) a' (consistent_reachable _ Hr) I) as (_ & Ev).
  unfold steady.
  cbn [avl insertionIndex initialTreeComplete userInputInsert userInputSearch
         isTypingInsert isTypingSearch].
  change numElements with 20.
  split; [exact Hr'|]. split; [exact Hf|]. split; [exact Hi|]. split; [exact Hsb|].
  split; [lia|]. split.
  - destruct (insertionIndex s + 1 =? 20) eqn:E;
      [apply Z.eqb_eq in E | apply Z.eqb_neq in E]; rewrite ?Gc; split; intros; congruence.
  - intros _. repeat split; try assumption.
    rewrite Ev, Hv.
    rewrite (insert_sorted_last _ x (prefix_smaller elements ascending_elements _ x Hn)).
    replace (Z.to_nat (insertionIndex s + 1)) with (S (Z.to_nat (insertionIndex s))) by lia.
    symmetry. now apply firstn_succ_nth.
Qed.

Lemma steady_initial : steady initial.
Proof.
  unfold steady, initial. cbn.
  split; [exists []; reflexivity|].
  repeat split; try reflexivity; try discriminate.
Qed.

Lemma passes_steady (ps : list (list event * bool)) :
  forall s s', steady s -> passes ps s = Done s' -> steady s'.
Proof.
  induction ps as [|[evs elapsed] ps IH]; intros s s' Hs H; cbn [passes] in H.
  - now injection H as <-.
  - unfold pass in H.
    destruct (pollEvents evs s) as [[s1 t1]| |] eqn:P; try discriminate. cbn [bind fst snd] in H.
    destruct (autoInsert elapsed s1) as [[s2 t2]| |] eqn:A; try discriminate.
    cbn [bind fst snd] in H.
    apply (IH s2 s'); [|exact H].
    destruct (pollEvents_steady evs s s1 t1 Hs P) as (Hs1 & _).
    exact (autoInsert_steady elapsed s1 s2 t2 Hs1 A).
Qed.

End InitialTree.

(** X13. After any number of passes of the main loop: the tree is one that
    insert requests build from the empty tree; at most one of the two text
    boxes is active; the boxes hold digits and minus signs only; and until
    the initial array is inserted completely the boxes are empty and
    inactive, and the tree holds exactly the first [insertionIndex] elements
    of the array. *)
Theorem main_loop_invariant (ps : list (list event * bool)) (s : state) :
  passes ps initial = Done s ->
  reachable (avl s)
  /\ isTypingInsert s && isTypingSearch s = false
  /\ forallb accepted (userInputInsert s) = true
  /\ forallb accepted (userInputSearch s) = true
  /\ 0 <= insertionIndex s <= numElements
  /\ (initialTreeComplete s = true <-> insertionIndex s = numElements)
  /\ (initialTreeComplete s = false ->
      userInputInsert s = [] /\ userInputSearch s = []
      /\ isTypingInsert s = false /\ isTypingSearch s = false
      /\ sortedElements (avl s) = firstn (Z.to_nat (insertionIndex s)) elements).
Proof.
  intros H. exact (passes_steady ps initial s steady_initial H).
Qed.

Lemma main_loop_invariant_witness :
  exists s, passes demo_passes initial = Done s
            /\ reachable (avl s)
            /\ isTypingInsert s && isTypingSearch s = false.
Proof.
  destruct (passes demo_passes initial) as [s| |] eqn:E.
  - exists s. split; [reflexivity|].
    destruct (main_loop_invariant demo_passes s E) as (Hr & Hf & _).
    split; [exact Hr | exact Hf].
  - vm_compute in E. discriminate E.
  - vm_compute in E. discriminate E.
Defined.

(** ** Enter in a text box *)

Section Enter.

Lemma digits_value_bound (s : list Z) :
  forall acc : Z,
    0 <= acc ->
    acc <= digits_value acc s <= (acc + 1) * 10 ^ Z.of_nat (length s) - 1.
Proof.
  induction s as [|c r IH]; intros acc Hacc.
  - cbn [digits_value length]. change (10 ^ Z.of_nat 0) with 1. lia.
  - cbn [digits_value length]. rewrite Nat2Z.inj_succ, Z.pow_succ_r by lia.
    assert (Hp : 1 <= 10 ^ Z.of_nat (length r)).
    { change 1 with (10 ^ 0). apply Z.pow_le_mono_r; lia. }
    destruct (isdigit c) eqn:D.
    + unfold isdigit in D. apply andb_true_iff in D.
      destruct D as (D1 & D2). apply Z.leb_le in D1, D2.
      specialize (IH (10 * acc + (c - 48)) ltac:(lia)). nia.
    + nia.
Qed.

Lemma skip_spaces_length (s : list Z) : (length (skip_spaces s) <= length s)%nat.
Proof.
  induction s as [|c r IH]; [reflexivity|].
  cbn [skip_spaces]. destruct (isspace c); cbn [length]; lia.
Qed.

(** Up to nine characters [atoi] stays inside [int]. *)
Lemma atoi_short (s : list Z) :
  (length s <= 9)%nat -> exists v, atoi s = Done v.
Proof.
  intros Hlen. unfold atoi.
  pose proof (skip_spaces_length s) as Hsk.
  set (s1 := skip_spaces s) in *.
  assert (Hpow : forall l : list Z, (length l <= 9)%nat -> 10 ^ Z.of_nat (length l) <= 1000000000).
  { intros l Hl. change 1000000000 with (10 ^ 9). apply Z.pow_le_mono_r; lia. }
  match goal with
  | |- exists v, (if (INT_MIN <=? ?w) && (?w <=? INT_MAX) then _ else _) = _ =>
      assert (Hw : -1000000000 < w < 1000000000)
  end.
  { destruct s1 as [|c r]; [lia|].
    pose proof (digits_value_bound r 0 ltac:(lia)) as Br.
    pose proof (digits_value_bound (c :: r) 0 ltac:(lia)) as Bs.
    pose proof (Hpow r ltac:(cbn [length] in Hsk; lia)).
    pose proof (Hpow (c :: r) ltac:(lia)).
    destruct (c =? 45); [lia|]. destruct (c =? 43); lia. }
  match goal with
  | |- exists v, (if ?b then _ else _) = _ => replace b with true
  end.
  - eauto.
  - symmetry. apply andb_true_iff. unfold INT_MIN, INT_MAX.
    split; apply Z.leb_le; lia.
Qed.

End Enter.

(** X14. With the search box active and not empty, Enter leaves the tree as
    it is, empties the box, and announces Found with the search path when the
    number typed is a key of the tree and Not Found with the search path when
    it is not. *)
Theorem search_request_reports (s : state) (u v : Z) :
  reachable (avl s) -> u mod 256 = 13 ->
  isTypingInsert s = false -> isTypingSearch s = true ->
  userInputSearch s <> [] -> atoi (userInputSearch s) = Done v ->
  handleEvent (TextEntered u) s
  = Done (mkState (avl s) (insertionIndex s) (initialTreeComplete s)
            (userInputInsert s) [] false true,
          [if search (avl s) v
           then SayFound v (getSearchPath (avl s) v)
           else SayNotFound v (getSearchPath (avl s) v)])
  /\ (search (avl s) v = true <-> In v (sortedElements (avl s))).
Proof.
  intros Hr Hu Hi Hs Hne Ha. split.
  - cbn [handleEvent]. rewrite Hu, Hi, Hs, Ha. cbn [Z.eqb Pos.eqb andb bind].
    destruct (userInputSearch s) as [|c r]; [congruence|].
    cbn [isEmpty negb bind]. rewrite main_found_search. reflexivity.
  - apply search_iff_In. now apply consistent_reachable.
Qed.

Lemma search_request_reports_witness :
  reachable (avl demo_search_state)
  /\ atoi (userInputSearch demo_search_state) = Done 110
  /\ snd (match handleEvent (TextEntered 13) demo_search_state with
          | Done r => r
          | _ => (demo_search_state, [])
          end)
     = [SayFound 110 (getSearchPath (avl demo_search_state) 110)].
Proof.
  assert (Hr : reachable (avl demo_search_state))
    by (exists (map Insert elements); vm_compute; reflexivity).
  assert (Ha : atoi (userInputSearch demo_search_state) = Done 110) by reflexivity.
  split; [exact Hr | split; [exact Ha|]].
  assert (Hne : userInputSearch demo_search_state <> []) by discriminate.
  rewrite (proj1 (search_request_reports demo_search_state 13 110 Hr eq_refl eq_refl eq_refl
                    Hne Ha)).
  vm_compute. reflexivity.
Defined.

(** X15. No event faults while each text box holds at most nine characters
    and the tree fewer than 2^30 keys: the number [atoi] reads then fits an
    [int], and the insert or the search that follows returns. *)
Theorem events_return (ev : event) (s : state) :
  reachable (avl s) ->
  (length (userInputInsert s) <= 9)%nat -> (length (userInputSearch s) <= 9)%nat ->
  size (sortedElements (avl s)) < MAX_KEYS ->
  exists r, handleEvent ev s = Done r.
Proof.
  intros Hr Hi Hs Hn.
  destruct ev as [|inI inS|u|]; cbn [handleEvent]; [eauto | | | eauto].
  - destruct inI; [|destruct inS]; eauto.
  - destruct (u mod 256 =? 13).
    + destruct (isTypingInsert s && negb (isEmpty (userInputInsert s))).
      * destruct (atoi_short _ Hi) as (v & ->). cbn [bind].
        destruct (insert_returns v (avl s) (consistent_reachable _ Hr) Hn) as (a' & ->).
        cbn [bind]. eauto.
      * destruct (isTypingSearch s && negb (isEmpty (userInputSearch s))); [|eauto].
        destruct (atoi_short _ Hs) as (v & ->). cbn [bind].
        rewrite main_found_search. cbn [bind]. eauto.
    + destruct (u mod 256 =? 8).
      * destruct (isTypingInsert s && negb (isEmpty (userInputInsert s))); [eauto|].
        destruct (isTypingSearch s && negb (isEmpty (userInputSearch s))); eauto.
      * destruct (accepted (u mod 256)); [|eauto].
        destruct (isTypingInsert s); [eauto|]. destruct (isTypingSearch s); eauto.
Qed.

Lemma events_return_witness :
  reachable (avl demo_search_state)
  /\ exists r, handleEvent (TextEntered 13) demo_search_state = Done r.
Proof.
  assert (Hr : reachable (avl demo_search_state))
    by (exists (map Insert elements); vm_compute; reflexivity).
  split; [exact Hr|].
  apply (events_return (TextEntered 13) demo_search_state Hr).
  - cbn. lia.
  - cbn. lia.
  - vm_compute. reflexivity.
Defined.

(** ** Remove, then insert *)

Section RemoveInsert.

Lemma insert_erase_sorted (v : list Z) (k : Z) :
  ascending v -> In k v -> insert_sorted (erase_sorted v k) k = v.
Proof.
  unfold ascending. induction v as [|x v IH]; intros Hs Hin; [destruct Hin|].
  inversion Hs as [|? ? Hv Hx]; subst. rewrite Forall_forall in Hx.
  rewrite erase_sorted_cons.
  destruct (x <? k) eqn:L; [apply Z.ltb_lt in L | apply Z.ltb_ge in L].
  - rewrite insert_sorted_cons.
    replace (x <? k) with true by (symmetry; now apply Z.ltb_lt).
    destruct Hin as [-> | Hin]; [lia|]. now rewrite IH.
  - destruct (x =? k) eqn:E; [apply Z.eqb_eq in E | apply Z.eqb_neq in E].
    + subst x. destruct v as [|y v'].
      * reflexivity.
      * rewrite insert_sorted_cons.
        pose proof (Hx y (or_introl eq_refl)).
        replace (y <? k) with false by (symmetry; apply Z.ltb_ge; lia).
        replace (y =? k) with false by (symmetry; apply Z.eqb_neq; lia).
        reflexivity.
    + destruct Hin as [-> | Hin]; [congruence|]. specialize (Hx k Hin). lia.
Qed.

End RemoveInsert.

(** X16. In a tree the driver can observe, removing a key that is in the
    tree and inserting it again gives back the sorted vector and the tree,
    node for node. *)
Theorem insert_after_remove (t t1 : AVLTree) (k : Z) :
  reachable t -> In k (sortedElements t) ->
  remove k t = Done t1 ->
  insert k t1 = Done t.
Proof.
  intros Hr Hin H. apply consistent_reachable in Hr.
  destruct Hr as (Ha & _ & R).
  rewrite remove_eq in H.
  destruct (rebuild (erase_sorted (sortedElements t) k)) as [r| |]; try discriminate.
  injection H as <-. rewrite insert_eq. cbn [sortedElements].
  rewrite (insert_erase_sorted _ _ Ha Hin), R. cbn [bind].
  now rewrite <- tree_is_record.
Qed.

Lemma insert_after_remove_witness :
  reachable demo_tree_60 /\ In 60 (sortedElements demo_tree_60)
  /\ remove 60 demo_tree_60 = Done demo_tree
  /\ insert 60 demo_tree = Done demo_tree_60.
Proof.
  assert (Hr : reachable demo_tree_60)
    by (exists (demo_requests ++ [Insert 60]); reflexivity).
  assert (Hin : In 60 (sortedElements demo_tree_60)) by (cbn; tauto).
  split; [exact Hr | split; [exact Hin | split; [reflexivity|]]].
  exact (insert_after_remove demo_tree_60 demo_tree 60 Hr Hin eq_refl).
Defined.

(** ** No shallower tree *)

Section Shallowest.

Lemma depth_nonneg (p : AVLNode) : 0 <= depth p.
Proof. induction p; cbn [depth]; lia. Qed.

(** A tree of depth [d] has at most [2^d - 1] nodes. *)
Lemma count_depth (p : AVLNode) : count p + 1 <= 2 ^ depth p.
Proof.
  induction p as [|k l IHl r IHr h]; [cbn; lia|].
  cbn [count depth].
  pose proof (depth_nonneg l). pose proof (depth_nonneg r).
  replace (1 + Z.max (depth l) (depth r)) with (Z.succ (Z.max (depth l) (depth r))) by lia.
  rewrite Z.pow_succ_r by lia.
  assert (2 ^ depth l <= 2 ^ Z.max (depth l) (depth r)) by (apply Z.pow_le_mono_r; lia).
  assert (2 ^ depth r <= 2 ^ Z.max (depth l) (depth r)) by (apply Z.pow_le_mono_r; lia).
  lia.
Qed.

Lemma count_inorder (p : AVLNode) : count p = Z.of_nat (length (inorder p)).
Proof.
  induction p as [|k l IHl r IHr h]; [reflexivity|].
  cbn [count inorder]. rewrite length_app. cbn [length]. lia.
Qed.

End Shallowest.

(** X17. In a tree the driver can observe, the tree is as shallow as a
    binary tree over its keys can be: no tree with the same in-order keys has
    a smaller depth. *)
Theorem tree_is_shallowest (t : AVLTree) (q : AVLNode) :
  reachable t -> inorder q = sortedElements t ->
  depth (root t) <= depth q.
Proof.
  intros Hr Hq. apply consistent_reachable in Hr.
  destruct (consistent_shape t Hr) as (_ & _ & _ & _ & Hd).
  rewrite Hd. apply Z.log2_up_le_pow2.
  - unfold size. lia.
  - pose proof (count_depth q) as Hc. rewrite count_inorder, Hq in Hc. exact Hc.
Qed.

Lemma tree_is_shallowest_witness :
  reachable demo_tree
  /\ inorder (fold_right (fun k q => node k nullptr q 0) nullptr demo_keys)
     = sortedElements demo_tree
  /\ depth (root demo_tree)
     <= depth (fold_right (fun k q => node k nullptr q 0) nullptr demo_keys).
Proof.
  assert (Hr : reachable demo_tree) by (exists demo_requests; reflexivity).
  split; [exact Hr | split; [reflexivity|]].
  exact (tree_is_shallowest demo_tree
           (fold_right (fun k q => node k nullptr q 0) nullptr demo_keys) Hr eq_refl).
Defined.

(** * The two programs at the edge of the [int] range *)

(** ** The flat search on [INT_MAX] elements *)

Section LongSequence.

(** The loop of the specification answers on every range that lies inside
    the sequence. *)
Lemma probes_total (seq : list Z) (target : Z) :
  forall (n : nat) (lo hi : Z),
    0 <= lo -> hi < size seq -> hi - lo + 1 <= Z.of_nat n ->
    exists p a, probes seq target lo hi p a.
Proof.
  induction n as [|n IH]; intros lo hi H0 H1 H2.
  - exists [], NotFound. constructor. lia.
  - destruct (Z_lt_le_dec hi lo) as [G|G].
    + exists [], NotFound. now constructor.
    + pose proof (upper_mid_between lo hi G) as Hmid. fold (midpoint lo hi) in Hmid.
      destruct (vec_at_Some seq (midpoint lo hi) ltac:(lia)) as (x & _ & Hv).
      destruct (Z.lt_trichotomy x target) as [L | [E | L]].
      * destruct (IH (midpoint lo hi + 1) hi) as (p & a & P); [lia | lia | lia |].
        exists (midpoint lo hi :: p), a. now apply (probes_right seq target lo hi x).
      * subst x. exists [midpoint lo hi], (Found (midpoint lo hi)). now constructor.
      * destruct (IH lo (midpoint lo hi - 1)) as (p & a & P); [lia | lia | lia |].
        exists (midpoint lo hi :: p), a. now apply (probes_left seq target lo hi x).
Qed.

Lemma vec_at_repeat_inv (x y : Z) (n : nat) (i : Z) :
  vec_at (repeat x n) i = Some y -> y = x.
Proof.
  unfold vec_at. destruct (i <? 0); [discriminate|].
  intros H. apply nth_error_In in H. now apply repeat_spec in H.
Qed.

Lemma size_zeros (n : Z) : 0 <= n -> size (zeros n) = n.
Proof.
  intros Hn. unfold size, zeros. rewrite repeat_length. now apply Z2Nat.id.
Qed.

(** On a sequence of zeros the loop of the specification, asked for 1, ends
    in not-found from every range inside the sequence. *)
Lemma probes_zeros (n : nat) (lo hi : Z) :
  0 <= lo -> hi < Z.of_nat n ->
  exists p, probes (repeat 0 n) 1 lo hi p NotFound.
Proof.
  intros H0 H1.
  destruct (probes_total (repeat 0 n) 1 n lo hi) as (p & a & P);
    [exact H0 | unfold size; now rewrite repeat_length | lia |].
  exists p. destruct a as [i|]; [|exact P].
  destruct (probes_answer _ _ _ _ _ _ P) as (Hv & _).
  apply vec_at_repeat_inv in Hv. discriminate Hv.
Qed.

(** On [INT_MAX] zeros it probes 2^30 - 1, then 1610612735, and goes on to
    exhaustion. *)
Lemma probes_zeros_INT_MAX :
  exists p,
    probes (zeros INT_MAX) 1 0 (INT_MAX - 1) (1073741823 :: 1610612735 :: p) NotFound.
Proof.
  unfold zeros.
  assert (Hn : Z.of_nat (Z.to_nat INT_MAX) = INT_MAX) by (apply Z2Nat.id; discriminate).
  destruct (probes_zeros (Z.to_nat INT_MAX) 1610612736 2147483646) as (p & P);
    [lia | rewrite Hn; reflexivity |].
  exists p.
  change (INT_MAX - 1) with 2147483646.
  change 1073741823 with (midpoint 0 2147483646).
  apply (probes_right _ 1 0 2147483646 0); [discriminate | | reflexivity |].
  { apply vec_at_repeat. rewrite Hn. split; [discriminate | reflexivity]. }
  change (midpoint 0 2147483646 + 1) with 1073741824.
  change 1610612735 with (midpoint 1073741824 2147483646).
  apply (probes_right _ 1 1073741824 2147483646 0); [discriminate | | reflexivity |].
  { apply vec_at_repeat. rewrite Hn. split; [discriminate | reflexivity]. }
  exact P.
Qed.

End LongSequence.

(** C4. On every ascending sequence the search should follow the loop of
    the specification and return an index of the target, or -1 on
    exhaustion.  On [INT_MAX] zeros searched for 1 the loop of the
    specification probes 2^30 - 1, then 1610612735, and goes on until the
    range is exhausted; the code probes 2^30 - 1, records -536870912 as its
    second index, reads out of range there and returns neither an index
    nor -1. *)
Theorem binarySearch_leaves_loop :
  sorted (zeros INT_MAX)
  /\ size (zeros INT_MAX) = INT_MAX
  /\ (exists p,
        probes (zeros INT_MAX) 1 0 (size (zeros INT_MAX) - 1)
          (1073741823 :: 1610612735 :: p) NotFound)
  /\ BinarySearch.binarySearch (zeros INT_MAX) 1
     = BinarySearch.mkRun [1073741823; -536870912] Fault
  /\ forall p r,
       BinarySearch.binarySearch (zeros INT_MAX) 1 <> BinarySearch.mkRun p (Done r).
Proof.
  pose proof (size_zeros INT_MAX ltac:(discriminate)) as Hs.
  split; [apply sorted_repeat | split; [exact Hs | split; [|split]]].
  - rewrite Hs. exact probes_zeros_INT_MAX.
  - exact binarySearch_zeros_trace.
  - intros p r. rewrite binarySearch_zeros_trace. discriminate.
Qed.

(** ** The tree at 2^30 keys *)

Section Capacity.

Lemma iota_succ (n : nat) :
  map Z.of_nat (seq 0 (S n)) = map Z.of_nat (seq 0 n) ++ [Z.of_nat n].
Proof. rewrite seq_S, map_app. reflexivity. Qed.

Lemma iota_below (n : nat) : Forall (fun y => y < Z.of_nat n) (map Z.of_nat (seq 0 n)).
Proof.
  apply Forall_forall. intros y Hy.
  apply in_map_iff in Hy. destruct Hy as (i & <- & Hi).
  apply in_seq in Hi. lia.
Qed.

(** Inserting 0, 1, ..., n-1 in this order into the empty tree returns, up
    to 2^30 keys, and leaves exactly these keys. *)
Lemma inserts_reach (n : nat) :
  Z.of_nat n <= MAX_KEYS ->
  exists t,
    perform_all (map Insert (map Z.of_nat (seq 0 n))) empty = Done t
    /\ sortedElements t = map Z.of_nat (seq 0 n).
Proof.
  unfold MAX_KEYS. induction n as [|n IH]; intros Hn.
  - exists empty. split; reflexivity.
  - destruct IH as (t & R & E); [lia|].
    assert (Hc : consistent t) by (apply consistent_reachable; eexists; exact R).
    destruct (insert_returns (Z.of_nat n) t Hc) as (t' & I).
    { rewrite E. unfold size, MAX_KEYS. rewrite length_map, length_seq. lia. }
    exists t'. split.
    + rewrite iota_succ, map_app, perform_all_app, R.
      cbn [bind map perform_all perform]. rewrite I. reflexivity.
    + destruct (consistent_insert _ _ _ Hc I) as (_ & Ev).
      rewrite Ev, E, iota_succ. apply insert_sorted_last, iota_below.
Qed.

(** The state with the keys 0, ..., 2^30 - 1, and what inserting 2^30 does
    to it. *)
Lemma capacity_state_of (n : nat) :
  Z.of_nat n = MAX_KEYS ->
  exists t,
    perform_all (map Insert (map Z.of_nat (seq 0 n))) empty = Done t
    /\ sortedElements t = map Z.of_nat (seq 0 n)
    /\ insert_sorted (sortedElements t) MAX_KEYS = map Z.of_nat (seq 0 (S n))
    /\ insert MAX_KEYS t = Fault.
Proof.
  intros Hn.
  destruct (inserts_reach n) as (t & R & E); [rewrite Hn; apply Z.le_refl|].
  assert (Ei : insert_sorted (sortedElements t) MAX_KEYS = map Z.of_nat (seq 0 (S n))).
  { rewrite E, iota_succ, Hn. apply insert_sorted_last.
    rewrite <- Hn. apply iota_below. }
  exists t. split; [exact R | split; [exact E | split; [exact Ei|]]].
  rewrite insert_eq, Ei, rebuild_overflow; [reflexivity|].
  unfold size. rewrite length_map, length_seq, Nat2Z.inj_succ, Hn.
  split; [apply Z.lt_succ_diag_r | discriminate].
Qed.

Lemma capacity_state :
  exists t,
    perform_all (map Insert (iota MAX_KEYS)) empty = Done t
    /\ sortedElements t = iota MAX_KEYS
    /\ insert_sorted (sortedElements t) MAX_KEYS = iota (MAX_KEYS + 1)
    /\ insert MAX_KEYS t = Fault.
Proof.
  unfold iota.
  replace (Z.to_nat (MAX_KEYS + 1)) with (S (Z.to_nat MAX_KEYS)) by (unfold MAX_KEYS; lia).
  apply capacity_state_of. apply Z2Nat.id. discriminate.
Qed.

End Capacity.


(** C7 as stated fails when the key is already there: from the tree that
    holds 5 alone, insert 5 changes nothing and remove 5 then empties the
    tree, which is not the tree the two requests started from.  And insert
    has to return: on the tree that holds the keys 0, ..., 2^30 - 1 the
    insert of the absent key 2^30 does not, and the pair of requests with
    it. *)
Lemma remove_after_insert_counterexample :
  (perform_all [Insert 5] empty = Done tree_5
   /\ perform_all [Insert 5; Remove 5] tree_5 = Done empty
   /\ tree_5 <> empty)
  /\ exists t,
       perform_all (map Insert (iota MAX_KEYS)) empty = Done t
       /\ ~ In MAX_KEYS (sortedElements t)
       /\ perform_all [Insert MAX_KEYS; Remove MAX_KEYS] t = Fault.
Proof.
  split; [split; [reflexivity | split; [reflexivity | discriminate]]|].
  destruct capacity_state as (t & R & E & _ & I).
  exists t. split; [exact R | split].
  - rewrite E. unfold iota. intros Hin.
    pose proof (iota_below (Z.to_nat MAX_KEYS)) as Hb.
    rewrite Forall_forall in Hb. apply Hb in Hin.
    rewrite Z2Nat.id in Hin by discriminate. revert Hin. apply Z.lt_irrefl.
  - cbn [perform_all perform]. rewrite I. reflexivity.
Qed.
